(** * Verification of the [utils] repository: [SplitFile.py] and [ics_parser.py]

    The two scripts are embedded as Rocq functions and the statements of the
    specification are settled against these embeddings.

    - [Text]: strings as Python's text layer presents them, [readlines],
      [os.path.splitext] (its POSIX implementation) and [str] of an integer.
    - [SplitFile]: the file splitter.  The file system is a finite map from
      paths to text; the console is the list of [print] calls; exceptions are
      an outcome of every operation.
    - [IcsParser]: the part of the calendar extractor that collects the
      events, sorts them and lays the report out. *)

From Stdlib Require Import ZArith Ascii String List Lia.
From stdpp Require Import base option list gmap strings pretty sorting.

Local Open Scope Z_scope.

(* ===================================================================== *)
(** ** Text: lines, paths and decimal numerals *)
(* ===================================================================== *)

Module Text.

(** The line terminator of Python's text layer.  A file opened in text mode
    with the default [newline=None] presents every line ending as "\n", so a
    text is split at this character only. *)
Definition newline : ascii := "010"%char.

(** [fp.readlines()]: the lines of a text, each with its terminator; the last
    line has none when the text does not end with one. *)
Fixpoint readlines (s : string) : list string :=
  match s with
  | EmptyString => []
  | String c rest =>
      if decide (c = newline) then String c EmptyString :: readlines rest
      else match readlines rest with
           | [] => [String c EmptyString]
           | line :: lines => String c line :: lines
           end
  end.

(** Lines as [readlines] returns them: every line but the last ends with the
    terminator, which occurs nowhere else; the last line may lack it and is
    then not empty. *)
Fixpoint no_newline (s : string) : Prop :=
  match s with
  | EmptyString => True
  | String c rest => c ≠ newline ∧ no_newline rest
  end.

Definition terminated_line (l : string) : Prop :=
  ∃ body, l = String.append body (String newline EmptyString) ∧ no_newline body.

Definition unterminated_line (l : string) : Prop :=
  l ≠ EmptyString ∧ no_newline l.

Inductive well_split : list string → Prop :=
| ws_nil : well_split []
| ws_last l : unterminated_line l → well_split [l]
| ws_terminated l ls : terminated_line l → well_split ls → well_split (l :: ls).

(** [''.join(lines)]: what [outfile.writelines(lines)] appends to a file. *)
Definition join (lines : list string) : string :=
  foldr String.append EmptyString lines.
Global Arguments join : simpl never.

(** Slices [s[:n]] and [s[n:]] for [0 <= n]. *)
Fixpoint slice_to (n : nat) (s : string) : string :=
  match n, s with
  | S n', String c rest => String c (slice_to n' rest)
  | _, _ => EmptyString
  end.

Fixpoint slice_from (n : nat) (s : string) : string :=
  match n, s with
  | S n', String _ rest => slice_from n' rest
  | _, _ => s
  end.

(** [s.rfind(c)]: the index of the last occurrence of [c], or [-1]. *)
Fixpoint rfind (c : ascii) (s : string) : Z :=
  match s with
  | EmptyString => -1
  | String a rest =>
      let r := rfind c rest in
      if 0 <=? r then r + 1 else if decide (a = c) then 0 else -1
  end.

(** The scan of [genericpath._splitext] over [p[filenameIndex:dotIndex]]: is
    there a character other than the extension separator? *)
Fixpoint has_non_dot (s : string) : bool :=
  match s with
  | EmptyString => false
  | String a rest => if decide (a = "."%char) then has_non_dot rest else true
  end.

(** [os.path.splitext] as [posixpath] implements it:
<<
    sepIndex = p.rfind('/')
    dotIndex = p.rfind('.')
    if dotIndex > sepIndex:
        filenameIndex = sepIndex + 1
        while filenameIndex < dotIndex:
            if p[filenameIndex:filenameIndex+1] != '.':
                return p[:dotIndex], p[dotIndex:]
            filenameIndex += 1
    return p, p[:0]
>> *)
Definition splitext (p : string) : string * string :=
  let sepIndex := rfind "/"%char p in
  let dotIndex := rfind "."%char p in
  if (sepIndex <? dotIndex)
     && has_non_dot (slice_from (Z.to_nat (sepIndex + 1))
                                (slice_to (Z.to_nat dotIndex) p))
  then (slice_to (Z.to_nat dotIndex) p, slice_from (Z.to_nat dotIndex) p)
  else (p, EmptyString).

(** [s.rstrip('/')]. *)
Fixpoint rstrip_sep (s : string) : string :=
  match s with
  | EmptyString => EmptyString
  | String c rest =>
      match rstrip_sep rest with
      | EmptyString => if decide (c = "/"%char) then EmptyString
                       else String c EmptyString
      | rest' => String c rest'
      end
  end.

(** [posixpath.dirname]:
<<
    i = p.rfind('/') + 1
    head = p[:i]
    if head and head != '/'*len(head):
        head = head.rstrip('/')
    return head
>> *)
Definition dirname (p : string) : string :=
  let i := rfind "/"%char p + 1 in
  let head := slice_to (Z.to_nat i) p in
  match rstrip_sep head with
  | EmptyString => head
  | stripped => stripped
  end.

(** [str(n)] for a Python [int]: the decimal numeral, with a leading "-" for a
    negative number. *)
Definition str (n : Z) : string := pretty n.

End Text.

(* ===================================================================== *)
(** ** SplitFile.py *)
(* ===================================================================== *)

Module SplitFile.
Import Text.

(** *** The world the script runs in *)

(** One [print] call, recorded with its arguments (the layout of the message
    is not modelled). *)
Inductive event :=
| PrintErrorHeader                               (* "ERROR reading header file" *)
| PrintGenerating (output_filename : string)     (* "Generating {}..." *)
| PrintPreamble (preamble : list string)         (* print(preamble) *)
| PrintLine (line : string)                      (* "  {}".format(line.strip()) *)
| PrintSeparator (count : Z)                     (* "-----...-" + str(count) *)
| PrintErrorProcessing (input_filename : string). (* "ERROR processing {}: {}" *)

(** The file system maps a path to the text of the file, as the text layer
    presents it.  [open(path)] raises when the path is absent;
    [open(path, 'w')] raises on a [protected] path (a directory, a read-only
    file, a missing directory) and otherwise creates or truncates the file. *)
Record world := World {
  contents : gmap string string;
  protected : gset string;
  console : list event
}.

(** An operation either returns a value or raises; in both cases it leaves a
    world behind, since nothing written is rolled back. *)
Inductive result (A : Type) :=
| Ok (a : A)
| Raised.
Arguments Ok {A} a.
Arguments Raised {A}.

Definition M (A : Type) : Type := world -> result A * world.

Definition ret {A} (a : A) : M A := fun w => (Ok a, w).

Definition bind {A B} (m : M A) (k : A -> M B) : M B :=
  fun w => match m w with
           | (Ok a, w') => k a w'
           | (Raised, w') => (Raised, w')
           end.

Notation "x <~ m ;; k" := (bind m (fun x => k))
  (at level 100, m at next level, right associativity).
Notation "m ;;; k" := (bind m (fun _ => k))
  (at level 100, right associativity).

Definition print (e : event) : M unit :=
  fun w => (Ok tt, World (contents w) (protected w) (console w ++ [e])).

(** [open(path)] followed by reads: the file object is the list of the lines
    not yet read. *)
Definition open_r (path : string) : M (list string) :=
  fun w => match contents w !! path with
           | Some text => (Ok (readlines text), w)
           | None => (Raised, w)
           end.

(** [open(path, 'w')]. *)
Definition open_w (path : string) : M unit :=
  fun w => if decide (path ∈ protected w) then (Raised, w)
           else (Ok tt, World (<[path := EmptyString]> (contents w))
                              (protected w) (console w)).

(** [outfile.write(s)] on the file opened at [path]. *)
Definition write (path s : string) : M unit :=
  fun w => (Ok tt, World (alter (fun text => text +:+ s) path (contents w))
                         (protected w) (console w)).

(** [outfile.writelines(lines)]. *)
Fixpoint writelines (path : string) (lines : list string) : M unit :=
  match lines with
  | [] => ret tt
  | line :: rest => write path line ;;; writelines path rest
  end.

(** [outfile.close()]: the text written is already in the file of the model,
    which does not buffer. *)
Definition close (path : string) : M unit := ret tt.

(** *** The script *)

Definition MAX_LINES_DEFAULT : Z := 50.

(** The namespace [argparse] returns. *)
Record Args := {
  files : list string;
  preamble : option string;
  size : option Z
}.

(** [input_filename_parts[0] + "-" + str(index) + input_filename_parts[1]]. *)
Definition chunk_name (parts : string * string) (index : Z) : string :=
  parts.1 +:+ "-" +:+ str index +:+ parts.2.

(** The name both [open(output_filename, 'w')] of [main] are given, with
    [index = int(count/max_lines)].  Python divides into a float and [int]
    truncates it towards zero; as long as [count] is below 2^53 in absolute
    value the result is the integer quotient truncated towards zero, which
    is [quot]. *)
Definition output_name (parts : string * string) (count max_lines : Z) : string :=
  chunk_name parts (count `quot` max_lines).

Section Splitter.

Variable the_preamble : list string.
Variable max_lines : Z.

(** Opening an output file, both at the start of an input file and at a
    rotation: the two places of [main] run the same statements. *)
Definition start_output (output_filename : string) : M unit :=
  print (PrintGenerating output_filename) ;;;
  open_w output_filename ;;;
  print (PrintPreamble the_preamble) ;;;
  writelines output_filename the_preamble.

(** The [while True] loop.  [fp] is the input file object, [outfile] the path
    of the open output file.  The loop ends when [fp.readline()] returns the
    empty string, that is at the end of the input; the result is the value
    of [count] after the loop and the closing of the last output file. *)
Fixpoint read_loop (parts : string * string) (fp : list string)
    (outfile : string) (count : Z) : M Z :=
  let count := count + 1 in
  match fp with
  | [] => close outfile ;;; ret count
  | line :: fp =>
      if decide (line = EmptyString) then close outfile ;;; ret count
      else
        print (PrintLine line) ;;;
        write outfile line ;;;
        if count `mod` max_lines =? 0 then
          close outfile ;;;
          let output_filename := output_name parts count max_lines in
          print (PrintSeparator count) ;;;
          start_output output_filename ;;;
          read_loop parts fp output_filename count
        else read_loop parts fp outfile count
  end.

(** The body of [for input_filename in args.files]. *)
Definition process_file (input_filename : string) (count : Z) : M Z :=
  fp <~ open_r input_filename ;;
  let input_filename_parts := splitext input_filename in
  let output_filename := output_name input_filename_parts count max_lines in
  start_output output_filename ;;;
  read_loop input_filename_parts fp output_filename count.

(** How the [for] loop ends: it ran to completion, or an exception left it
    with [input_filename] bound to the file being processed. *)
Inductive status :=
| Completed (count : Z)
| Failed (input_filename : string).

Fixpoint for_files (inputs : list string) (count : Z) (w : world)
    : status * world :=
  match inputs with
  | [] => (Completed count, w)
  | input_filename :: rest =>
      match process_file input_filename count w with
      | (Ok count', w') => for_files rest count' w'
      | (Raised, w') => (Failed input_filename, w')
      end
  end.

(** [try: for ...  except Exception as ex: print("ERROR processing ...")]. *)
Definition try_files (inputs : list string) (w : world) : world :=
  match for_files inputs 0 w with
  | (Completed _, w') => w'
  | (Failed input_filename, w') =>
      (print (PrintErrorProcessing input_filename) w').2
  end.

(** *** Notions the statements are written with *)

(** The chunks the loop cuts [fp] into, as pairs of the value of [count] at
    which the output file was opened and the lines written to it.
    [opened_at] and [cur] describe the output file that is open when the loop
    is entered.  The function follows the control flow of [read_loop] and
    nothing else; [read_loop_layout] relates the two. *)
Fixpoint layout (opened_at : Z) (cur : list string) (count : Z)
    (fp : list string) : list (Z * list string) :=
  match fp with
  | [] => [(opened_at, cur)]
  | line :: fp =>
      let count := count + 1 in
      if count `mod` max_lines =? 0
      then (opened_at, cur ++ [line]) :: layout count [] count fp
      else layout opened_at (cur ++ [line]) count fp
  end.

(** The path of a chunk and the text of its file. *)
Definition chunk_path (parts : string * string) (chunk : Z * list string)
    : string :=
  output_name parts chunk.1 max_lines.

Definition chunk_text (chunk : Z * list string) : string :=
  join the_preamble +:+ join chunk.2.

(** The file system after the chunks have been written, in order. *)
Definition write_all (parts : string * string)
    (chunks : list (Z * list string)) (fs : gmap string string)
    : gmap string string :=
  foldl (fun fs chunk => <[chunk_path parts chunk := chunk_text chunk]> fs)
        fs chunks.

End Splitter.

(** The output files announced on a console, and the counts printed at the
    rotations. *)
Definition generated (evs : list event) : list string :=
  omap (fun e => match e with
                 | PrintGenerating output_filename => Some output_filename
                 | _ => None
                 end) evs.

Definition separators (evs : list event) : list Z :=
  omap (fun e => match e with
                 | PrintSeparator count => Some count
                 | _ => None
                 end) evs.

(** Reading the header file: [preamble = []], replaced by the lines of the
    file when a path is given and the read succeeds. *)
Definition load_preamble (args : Args) (w : world) : list string * world :=
  match preamble args with
  | Some path =>
      if decide (path = EmptyString) then ([], w)
      else match open_r path w with
           | (Ok lines, w') => (lines, w')
           | (Raised, w') => ([], (print PrintErrorHeader w').2)
           end
  | None => ([], w)
  end.

(** [max_lines = MAX_LINES_DEFAULT; if args.size: max_lines = args.size]. *)
Definition max_lines_of (args : Args) : Z :=
  match size args with
  | Some n => if decide (n = 0) then MAX_LINES_DEFAULT else n
  | None => MAX_LINES_DEFAULT
  end.

Definition main (args : Args) (w : world) : world :=
  let '(the_preamble, w) := load_preamble args w in
  let max_lines := max_lines_of args in
  try_files the_preamble max_lines (files args) w.

(** Two properties of an operation, both used to compare runs.
    [appends m]: [m] adds messages at the end of the console and does not
    depend on what the console already holds.  [confined parts m]: [m] leaves
    the protection of paths alone and writes to no file but the chunks
    [chunk_name parts k]. *)
Definition prepend (l : list event) (w : world) : world :=
  World (contents w) (protected w) (l ++ console w).

Definition appends {A} (m : M A) : Prop :=
  ∀ l w, m (prepend l w) = ((m w).1, prepend l (m w).2).

Definition confined {A} (parts : string * string) (m : M A) : Prop :=
  ∀ w, protected (m w).2 = protected w
       ∧ ∀ p, (∀ k, p ≠ chunk_name parts k) →
              contents (m w).2 !! p = contents w !! p.

(** *** A small file system for the examples *)

Definition line (s : string) : string := s +:+ String newline EmptyString.

Definition demo_files : gmap string string :=
  {[ "a.txt" := line "l1" +:+ line "l2";
     "b.txt" := line "m1" +:+ line "m2" +:+ line "m3";
     "d/notes.log" := line "x" +:+ line "y" +:+ "z";
     "header" := line "HDR";
     "empty.txt" := EmptyString ]}.

Definition demo_world : world := World demo_files ∅ [].

(** The same files, where "a-1.txt" cannot be opened for writing. *)
Definition locked_world : world := World demo_files {[ "a-1.txt" ]} [].

End SplitFile.

(* ===================================================================== *)
(** ** ics_parser.py *)
(* ===================================================================== *)

Module IcsParser.

(** *** Dates and times of Python's [datetime] module *)

Record date := Date { year : Z; month : Z; day : Z }.

(** A [tzinfo] object: its identity, which [datetime] comparison looks at
    first, and the offset from UTC, in microseconds, that it gives for the
    datetime it is attached to ([None] when it gives none). *)
Record tzinfo := TzInfo { tz_ident : Z; tz_utcoffset : option Z }.

Record datetime := DateTime {
  dt_date : date;
  hour : Z; minute : Z; second : Z; microsecond : Z;
  tz : option tzinfo
}.

(** [datetime.min], which is naive. *)
Definition datetime_min : datetime := DateTime (Date 1 1 1) 0 0 0 0 None.

(** [datetime(d.year, d.month, d.day, 0, 0, 0)]. *)
Definition midnight (d : date) : datetime := DateTime d 0 0 0 0 None.

Definition utcoffset (dt : datetime) : option Z :=
  match tz dt with
  | Some t => tz_utcoffset t
  | None => None
  end.

(** [date.toordinal]: [_ymd2ord] of [datetime.py]. *)
Definition is_leap (y : Z) : bool :=
  (y `mod` 4 =? 0) && (negb (y `mod` 100 =? 0) || (y `mod` 400 =? 0)).

Definition days_before_year (y : Z) : Z :=
  let y := y - 1 in y * 365 + y `div` 4 - y `div` 100 + y `div` 400.

Definition days_in_month (y m : Z) : Z :=
  if m =? 2 then (if is_leap y then 29 else 28)
  else if (m =? 4) || (m =? 6) || (m =? 9) || (m =? 11) then 30
  else 31.

Definition days_before_month (y m : Z) : Z :=
  foldr (fun k acc => days_in_month y k + acc) 0 (seqZ 1 (m - 1)).

Definition toordinal (d : date) : Z :=
  days_before_year (year d) + days_before_month (year d) (month d) + day d.

(** The comparison of the tuples
    [(year, month, day, hour, minute, second, microsecond)]. *)
Definition fields (dt : datetime) : list Z :=
  [year (dt_date dt); month (dt_date dt); day (dt_date dt);
   hour dt; minute dt; second dt; microsecond dt].

Fixpoint tuple_lt (xs ys : list Z) : bool :=
  match xs, ys with
  | x :: xs, y :: ys => (x <? y) || ((x =? y) && tuple_lt xs ys)
  | [], _ :: _ => true
  | _, [] => false
  end.

(** [self - other] in microseconds, offsets left aside. *)
Definition base_diff (a b : datetime) : Z :=
  ((toordinal (dt_date a) - toordinal (dt_date b)) * 86400
   + (second a + minute a * 60 + hour a * 3600)
   - (second b + minute b * 60 + hour b * 3600)) * 1000000
  + (microsecond a - microsecond b).

Inductive result (A : Type) :=
| Ok (a : A)
| TypeError.
Arguments Ok {A} a.
Arguments TypeError {A}.

(** [a < b] on datetimes: [datetime._cmp].  Two datetimes with the same
    [tzinfo] object (or none at all) or with equal offsets compare by their
    fields; a datetime without offset does not compare with one that has an
    offset; otherwise the instants are compared. *)
Definition datetime_lt (a b : datetime) : result bool :=
  let same_tzinfo :=
    match tz a, tz b with
    | None, None => true
    | Some ta, Some tb => tz_ident ta =? tz_ident tb
    | _, _ => false
    end in
  if same_tzinfo then Ok (tuple_lt (fields a) (fields b))
  else
    match utcoffset a, utcoffset b with
    | None, None => Ok (tuple_lt (fields a) (fields b))
    | Some myoff, Some otoff =>
        if myoff =? otoff then Ok (tuple_lt (fields a) (fields b))
        else Ok (base_diff a b + otoff - myoff <? 0)
    | _, _ => TypeError
    end.

(** *** The calendar *)

(** The value [.dt] of a DTSTART or DTEND property: a [date] for an all-day
    event, a [datetime] otherwise ([isinstance(dt, datetime)]). *)
Inductive dt_value :=
| IsDate (d : date)
| IsDateTime (dt : datetime).

(** A component of [gcal.walk()] with the properties the script reads. *)
Record component := Component {
  name : string;
  summary : option string;
  dtstart : option dt_value;
  dtend : option dt_value;
  description : option string;
  location : option string;
  uid : option string
}.

(** The dictionary appended to [events]. *)
Record event := Event {
  sort_key : option datetime;
  ev_summary : string;
  start_prop : option dt_value;
  end_prop : option dt_value;
  ev_description : string;
  ev_location : string;
  ev_uid : string
}.

(** The lines of the report; the layout of a date is [strftime]'s and is not
    modelled. *)
Inductive when :=
| LocalTime (dt : datetime)       (* "... (Local Time/No TZ info)" *)
| ZonedTime (dt : datetime)       (* "%Y-%m-%d %H:%M:%S %Z%z" *)
| AllDay (d : date).              (* "... (All Day Event)" *)

Inductive report_line :=
| Header (ics_file_path : string)
| Blank
| Title (s : string)
| Start (t : when)
| Finish (t : when)
| Location (s : string)
| Description (s : string)
| Rule
| Footer.

(** [str(prop) if prop else default]: an absent or empty text property. *)
Definition text_or (prop : option string) (default : string) : string :=
  match prop with
  | Some s => if decide (s = EmptyString) then default else s
  | None => default
  end.

Section Parser.

(** [s.strip()] and [' '.join(s.split())]. *)
Variable strip : string → string.
Variable squeeze : string → string.

Definition collect_event (c : component) : event :=
  let sort_key_dt :=
    match dtstart c with
    | Some (IsDateTime dt_obj) => Some dt_obj
    | Some (IsDate dt_obj) => Some (midnight dt_obj)
    | None => None
    end in
  Event sort_key_dt
        (strip (text_or (summary c) "No Title"))
        (dtstart c) (dtend c)
        (squeeze (text_or (description c) EmptyString))
        (strip (text_or (location c) EmptyString))
        (strip (text_or (uid c) "No UID")).

(** [for component in gcal.walk(): if component.name == "VEVENT": ...]. *)
Definition collect (walk : list component) : list event :=
  collect_event <$> filter (fun c => name c = "VEVENT") walk.

(** [lambda x: x['sort_key'] if x['sort_key'] is not None else datetime.min]. *)
Definition key (e : event) : datetime :=
  match sort_key e with
  | Some k => k
  | None => datetime_min
  end.

(** [events.sort(key=...)].  The sort is stable and compares keys with [<]
    only; an exception raised by a comparison leaves the sort.  It is
    modelled as the insertion of each event, from left to right, after the
    events already placed whose key is not greater: binary insertion, which
    is what the list sort runs on a short list, places the events likewise. *)
Fixpoint insert (e : event) (sorted : list event) : result (list event) :=
  match sorted with
  | [] => Ok [e]
  | e' :: rest =>
      match datetime_lt (key e) (key e') with
      | TypeError => TypeError
      | Ok true => Ok (e :: e' :: rest)
      | Ok false =>
          match insert e rest with
          | Ok rest' => Ok (e' :: rest')
          | TypeError => TypeError
          end
      end
  end.

Definition sort (events : list event) : result (list event) :=
  foldl (fun acc e => match acc with
                      | Ok sorted => insert e sorted
                      | TypeError => TypeError
                      end) (Ok []) events.

Definition render_when (v : dt_value) : when :=
  match v with
  | IsDateTime dt =>
      match utcoffset dt with
      | None => LocalTime dt
      | Some _ => ZonedTime dt
      end
  | IsDate d => AllDay d
  end.

Definition render_event (e : event) : list report_line :=
  [Title (ev_summary e)]
  ++ match start_prop e with Some v => [Start (render_when v)] | None => [] end
  ++ match end_prop e with Some v => [Finish (render_when v)] | None => [] end
  ++ (if decide (ev_location e = EmptyString) then []
      else [Location (ev_location e)])
  ++ (if decide (ev_description e = EmptyString) then []
      else [Description (ev_description e)])
  ++ [Rule].

(** [parse_ics_to_human_readable], from the parsed calendar to
    [output_lines]; the [TypeError] of the sort is not caught. *)
Definition parse_ics_to_human_readable (ics_file_path : string)
    (walk : list component) : result (list report_line) :=
  match sort (collect walk) with
  | TypeError => TypeError
  | Ok events =>
      Ok ([Header ics_file_path; Blank]
          ++ concat (render_event <$> events)
          ++ [Footer])
  end.

End Parser.

(** The two kinds of keys: without [tzinfo], as the key of an all-day event
    or of an event without start is, and with an offset from UTC. *)
Definition naive_key (e : event) : Prop := tz (key e) = None.
Definition aware_key (e : event) : Prop := is_Some (utcoffset (key e)).

(** The order of the report: [key_le e1 e2] when the key of [e2] is not
    before the key of [e1], field by field. *)
Definition key_le (e1 e2 : event) : Prop :=
  tuple_lt (fields (key e2)) (fields (key e1)) = false.

(** A calendar of the kind a calendar application exports: an event with a
    start time in UTC and an all-day event. *)
Definition utc : tzinfo := TzInfo 0 (Some 0).

Definition timed_event : component :=
  Component "VEVENT" (Some "Meeting")
    (Some (IsDateTime (DateTime (Date 2024 1 1) 10 0 0 0 (Some utc))))
    (Some (IsDateTime (DateTime (Date 2024 1 1) 11 0 0 0 (Some utc))))
    None None (Some "1").

Definition all_day_event : component :=
  Component "VEVENT" (Some "Holiday")
    (Some (IsDate (Date 2024 1 2))) (Some (IsDate (Date 2024 1 3)))
    None None (Some "2").

Definition floating_event : component :=
  Component "VEVENT" (Some "Lunch")
    (Some (IsDateTime (DateTime (Date 2024 1 1) 12 0 0 0 None)))
    None None (Some "Canteen") (Some "3").

End IcsParser.

(* ===================================================================== *)
(** ** Further notions: SplitFile.py *)
(* ===================================================================== *)

Module SplitFileMore.
Import Text SplitFile.

(** An operation that removes no file. *)
Definition keeps_files {A} (m : M A) : Prop :=
  ∀ w p, is_Some (contents w !! p) → is_Some (contents (m w).2 !! p).

Section Echo.

(** [s.strip()]. *)
Variable strip : string → string.

(** The text printed for a line that was read:
    ["  {}".format(line.strip())]. *)
Definition echo (line : string) : string := "  " +:+ strip line.

(** The texts printed on a console for the lines that were read, one for each
    such [print] call and in the order of the calls. *)
Definition echoed (evs : list event) : list string :=
  omap (fun e => match e with
                 | PrintLine line => Some (echo line)
                 | _ => None
                 end) evs.

End Echo.

(** The number of calls of [fp.readline()] that reading files of these texts
    takes: one for every line and one for the end of each file. *)
Definition reads (texts : list string) : Z :=
  foldr (fun text acc => Z.of_nat (length (readlines text)) + 1 + acc) 0 texts.

(** The files of the examples, where "a-0.txt" cannot be opened for writing. *)
Definition first_locked_world : world := World demo_files {[ "a-0.txt" ]} [].

End SplitFileMore.

(* ===================================================================== *)
(** ** Further notions: ics_parser.py with its files *)
(* ===================================================================== *)

Module IcsParserMore.
Import IcsParser.

(** The titles of a report, in the order of its lines. *)
Definition titles (lines : list report_line) : list string :=
  omap (fun l => match l with
                 | Title s => Some s
                 | _ => None
                 end) lines.

(** The two kinds of start of a component.  A start without offset: no
    DTSTART, a date, or a datetime without [tzinfo]; the key the script
    builds for it is naive.  A start with an offset from UTC. *)
Definition naive_start (c : component) : Prop :=
  match dtstart c with
  | Some (IsDateTime dt) => tz dt = None
  | _ => True
  end.

Definition aware_start (c : component) : Prop :=
  match dtstart c with
  | Some (IsDateTime dt) => is_Some (utcoffset dt)
  | _ => False
  end.

(** The [tzinfo] object of a key, by its identity. *)
Definition tzinfo_of (e : event) : option Z := tz_ident <$> tz (key e).

(** *** The function with its files *)

(** The messages of [parse_ics_to_human_readable]. *)
Inductive message :=
| NotFound (ics_file_path : string)          (* "Error: The file '...' was not found." *)
| ReadError                                   (* "Error reading or parsing ICS file: ..." *)
| Report (output_content : string)            (* print(output_content) *)
| Extracted (output_file_path : string)       (* "Successfully extracted events to: ..." *)
| WriteError (output_file_path : string).     (* "Error writing to output file '...': ..." *)

(** The files: their contents, the paths at which [open(path, 'rb')] raises
    something else than [FileNotFoundError] (a directory, a file without read
    permission), and the paths at which [open(path, 'w')] raises. *)
Record world := World {
  contents : gmap string string;
  unreadable : gset string;
  protected : gset string;
  console : list message
}.

(** How the call ends: it returns, or the [TypeError] of the sort leaves it. *)
Inductive outcome :=
| Returned
| Raised.

Section Script.

(** [icalendar.Calendar.from_ical] followed by [walk()]: the components of
    the calendar, or [None] when the text is not a calendar and parsing
    raises.  [show] is the text of a line of the report. *)
Variable from_ical : string → option (list component).
Variable strip : string → string.
Variable squeeze : string → string.
Variable show : report_line → string.

(** ["\n".join(output_lines)]. *)
Fixpoint join_lines (lines : list string) : string :=
  match lines with
  | [] => EmptyString
  | [l] => l
  | l :: rest => String.append l (String Text.newline (join_lines rest))
  end.

Definition say (m : message) (w : world) : world :=
  World (contents w) (unreadable w) (protected w) (console w ++ [m]).

(** The [try] around [open(ics_file_path, 'rb')] and [from_ical]. *)
Definition read_calendar (ics_file_path : string) (w : world)
    : option (list component) * world :=
  match contents w !! ics_file_path with
  | None => (None, say (NotFound ics_file_path) w)
  | Some text =>
      if decide (ics_file_path ∈ unreadable w) then (None, say ReadError w)
      else match from_ical text with
           | None => (None, say ReadError w)
           | Some walk => (Some walk, w)
           end
  end.

(** The end of the function: [if output_file_path: ... else: print(...)]. *)
Definition deliver (output_file_path : option string)
    (output_content : string) (w : world) : world :=
  match output_file_path with
  | Some path =>
      if decide (path = EmptyString) then say (Report output_content) w
      else if decide (path ∈ protected w) then say (WriteError path) w
      else say (Extracted path)
               (World (<[path := output_content]> (contents w))
                      (unreadable w) (protected w) (console w))
  | None => say (Report output_content) w
  end.

(** [parse_ics_to_human_readable(ics_file_path, output_file_path)] with its
    files and messages, around the layout of the report modelled above. *)
Definition run (ics_file_path : string) (output_file_path : option string)
    (w : world) : outcome * world :=
  match read_calendar ics_file_path w with
  | (None, w') => (Returned, w')
  | (Some walk, w') =>
      match parse_ics_to_human_readable strip squeeze ics_file_path walk with
      | TypeError => (Raised, w')
      | Ok output_lines =>
          (Returned,
           deliver output_file_path (join_lines (show <$> output_lines)) w')
      end
  end.

End Script.

(** *** Calendars for the examples *)

Definition later_timed_event : component :=
  Component "VEVENT" (Some "Review")
    (Some (IsDateTime (DateTime (Date 2024 1 1) 9 30 0 0 (Some utc))))
    None None None (Some "4").


(** A file taken for a calendar with a timed and an all-day event, and a
    layout of the lines that keeps the titles only. *)
Definition demo_from_ical (text : string) : option (list component) :=
  if decide (text = "BEGIN:VCALENDAR") then Some [timed_event; all_day_event]
  else None.

Definition demo_show (l : report_line) : string :=
  match l with
  | Title s => s
  | _ => EmptyString
  end.

Definition calendar_world : world :=
  World {[ "cal.ics" := "BEGIN:VCALENDAR" ]} ∅ ∅ [].

End IcsParserMore.

(* ===================================================================== *)
(** ** Facts about text *)
(* ===================================================================== *)

Module TextFacts.
Import Text.

Lemma sapp_cons (c : ascii) (a b : string) :
  String c a +:+ b = String c (a +:+ b).
Proof. reflexivity. Qed.

Lemma sapp_empty_l (s : string) : EmptyString +:+ s = s.
Proof. reflexivity. Qed.

Lemma sapp_empty_r (s : string) : s +:+ EmptyString = s.
Proof. induction s as [|c s IH]; [done|]. by rewrite sapp_cons, IH. Qed.

Lemma sapp_assoc (a b c : string) : (a +:+ b) +:+ c = a +:+ b +:+ c.
Proof. induction a as [|x a IH]; [done|]. by rewrite !sapp_cons, IH. Qed.

Lemma length_sapp (a b : string) :
  String.length (a +:+ b) = (String.length a + String.length b)%nat.
Proof. induction a as [|x a IH]; [done|]. rewrite sapp_cons. simpl. by rewrite IH. Qed.

Lemma sapp_inj_r (a b c : string) : a +:+ c = b +:+ c → a = b.
Proof.
  revert b. induction a as [|x a IH]; intros [|y b] H.
  - done.
  - apply (f_equal String.length) in H. rewrite sapp_cons, sapp_empty_l in H.
    simpl in H. rewrite length_sapp in H. lia.
  - apply (f_equal String.length) in H. rewrite sapp_cons, sapp_empty_l in H.
    simpl in H. rewrite length_sapp in H. lia.
  - rewrite !sapp_cons in H. injection H as -> H. f_equal. by apply IH.
Qed.

Lemma join_cons (l : string) (ls : list string) : join (l :: ls) = l +:+ join ls.
Proof. reflexivity. Qed.

Lemma join_app (l1 l2 : list string) : join (l1 ++ l2) = join l1 +:+ join l2.
Proof.
  induction l1 as [|x l1 IH]; [done|].
  by rewrite <- app_comm_cons, !join_cons, IH, sapp_assoc.
Qed.

Lemma join_readlines (s : string) : join (readlines s) = s.
Proof.
  induction s as [|c s IH]; [done|]. simpl.
  case_decide.
  - by rewrite join_cons, IH.
  - destruct (readlines s) as [|l ls].
    + by rewrite <- IH.
    + rewrite join_cons in *. by rewrite sapp_cons, IH.
Qed.

Lemma readlines_nonempty (s : string) :
  Forall (λ line, line ≠ EmptyString) (readlines s).
Proof.
  induction s as [|c s IH]; simpl; [constructor|].
  case_decide.
  - by constructor.
  - destruct (readlines s) as [|l ls].
    + by repeat constructor.
    + inversion IH; subst. by constructor.
Qed.

Lemma slice_to_from (n : nat) (s : string) : slice_to n s +:+ slice_from n s = s.
Proof.
  revert s. induction n as [|n IH]; intros [|c s]; simpl; try done.
  by rewrite sapp_cons, IH.
Qed.

Lemma splitext_join (p : string) : (splitext p).1 +:+ (splitext p).2 = p.
Proof.
  unfold splitext. case_match; simpl.
  - apply slice_to_from.
  - apply sapp_empty_r.
Qed.

Lemma str_inj (m n : Z) : str m = str n → m = n.
Proof. apply pretty_Z_inj. Qed.

(** *** Lines read back *)

Lemma readlines_terminated body rest :
  no_newline body →
  readlines (body +:+ String newline rest)
  = (body +:+ String newline EmptyString) :: readlines rest.
Proof.
  induction body as [|c body IH]; intros Hbody.
  - by rewrite !sapp_empty_l.
  - destruct Hbody as [Hc Hbody]. rewrite !sapp_cons. simpl.
    rewrite decide_False by done. by rewrite IH.
Qed.

Lemma readlines_unterminated l :
  l ≠ EmptyString → no_newline l → readlines l = [l].
Proof.
  induction l as [|c l IH]; intros Hne Hl; [done|].
  destruct Hl as [Hc Hl]. simpl. rewrite decide_False by done.
  destruct l as [|c' l']; [done|]. by rewrite IH.
Qed.

Lemma readlines_well_split s : well_split (readlines s).
Proof.
  induction s as [|c s IH]; simpl; [constructor|].
  case_decide as Hc.
  - subst c. apply ws_terminated; [|done]. by exists EmptyString.
  - destruct (readlines s) as [|l ls]; [by apply ws_last|].
    inversion IH as [|l' [Hne Hl]|l' ls' (body & -> & Hbody) Hls]; subst.
    + by apply ws_last.
    + apply ws_terminated; [|done]. by exists (String c body).
Qed.

Lemma well_split_read_back lines :
  well_split lines → readlines (join lines) = lines.
Proof.
  induction 1 as [|l [Hne Hl]|l ls (body & -> & Hbody) Hls IH].
  - done.
  - rewrite join_cons. change (join []) with EmptyString.
    rewrite sapp_empty_r. by apply readlines_unterminated.
  - rewrite join_cons, sapp_assoc. change (String newline EmptyString +:+ join ls)
      with (String newline (join ls)).
    by rewrite readlines_terminated, IH.
Qed.

Lemma well_split_app_l l1 l2 : well_split (l1 ++ l2) → well_split l1.
Proof.
  revert l2. induction l1 as [|x l1 IH]; intros l2 H; [constructor|].
  rewrite <- app_comm_cons in H.
  inversion H as [|l Hx|l ls Hx Hls]; subst.
  - destruct l1; [by apply ws_last|done].
  - apply ws_terminated; [done|]. by eapply IH.
Qed.

Lemma well_split_app_r l1 l2 : well_split (l1 ++ l2) → well_split l2.
Proof.
  induction l1 as [|x l1 IH]; intros H; [done|].
  rewrite <- app_comm_cons in H.
  inversion H as [|l Hx|l ls Hx Hls]; subst.
  - destruct l1, l2; simplify_eq/=. constructor.
  - by apply IH.
Qed.

(** The lines of a chunk are the lines of the text written for it: a file
    read back shows the lines it was given. *)
Lemma chunks_read_back (chunks : list (list string)) text :
  concat chunks = readlines text →
  Forall (λ lines, readlines (join lines) = lines) chunks.
Proof.
  intros Hc. apply Forall_forall. intros lines Hin.
  apply list_elem_of_split in Hin as (l1 & l2 & ->).
  rewrite concat_app, concat_cons in Hc.
  pose proof (readlines_well_split text) as Hw. rewrite <- Hc in Hw.
  apply well_split_read_back.
  by eapply well_split_app_l, well_split_app_r.
Qed.

(** *** Paths *)

Lemma rfind_ge c s : -1 ≤ rfind c s.
Proof.
  induction s as [|a s IH]; simpl; [done|].
  destruct (0 <=? rfind c s) eqn:E; [apply Z.leb_le in E; lia|].
  case_decide; lia.
Qed.

Lemma rfind_lt c s : rfind c s < Z.of_nat (String.length s).
Proof.
  induction s as [|a s IH]; simpl String.length; simpl rfind; [lia|].
  destruct (0 <=? rfind c s) eqn:E; [lia|].
  case_decide; lia.
Qed.

Lemma rfind_app c a b :
  rfind c (a +:+ b)
  = if 0 <=? rfind c b then Z.of_nat (String.length a) + rfind c b
    else rfind c a.
Proof.
  induction a as [|x a IH].
  - rewrite sapp_empty_l. simpl. pose proof (rfind_ge c b).
    destruct (0 <=? rfind c b) eqn:E; [lia|]. apply Z.leb_gt in E. lia.
  - rewrite sapp_cons. simpl rfind. rewrite IH.
    destruct (0 <=? rfind c b) eqn:E.
    + apply Z.leb_le in E. simpl String.length.
      destruct (0 <=? _) eqn:E'; [lia|]. apply Z.leb_gt in E'. lia.
    + done.
Qed.

Lemma rfind_app_absent c a b :
  rfind c b = -1 → rfind c (a +:+ b) = rfind c a.
Proof. intros H. by rewrite rfind_app, H. Qed.

Lemma rfind_absent_app c a b :
  rfind c a = -1 → rfind c b = -1 → rfind c (a +:+ b) = -1.
Proof. intros Ha Hb. by rewrite rfind_app_absent. Qed.

Lemma length_slice_to n s : String.length (slice_to n s) = (n `min` String.length s)%nat.
Proof.
  revert s. induction n as [|n IH]; intros [|c s]; simpl; try done.
  by rewrite IH.
Qed.

Lemma slice_to_app_le n a b :
  (n ≤ String.length a)%nat → slice_to n (a +:+ b) = slice_to n a.
Proof.
  revert a. induction n as [|n IH]; intros [|c a] H; simpl in *; try done.
  - lia.
  - rewrite IH; [done|lia].
Qed.

Lemma slice_to_twice n m s : (n ≤ m)%nat → slice_to n (slice_to m s) = slice_to n s.
Proof.
  revert m s. induction n as [|n IH]; intros [|m] [|c s] H; simpl; try done.
  - lia.
  - rewrite IH; [done|lia].
Qed.

(** Cutting a string after the last occurrence of a character. *)
Lemma rfind_cut c s n :
  rfind c s < Z.of_nat n →
  rfind c (slice_to n s) = rfind c s ∧ rfind c (slice_from n s) = -1.
Proof.
  intros H. pose proof (rfind_app c (slice_to n s) (slice_from n s)) as E.
  rewrite slice_to_from in E. pose proof (rfind_ge c (slice_from n s)).
  destruct (0 <=? rfind c (slice_from n s)) eqn:E'.
  - apply Z.leb_le in E'. rewrite length_slice_to in E.
    destruct (decide (n ≤ String.length s)%nat).
    + lia.
    + assert (slice_from n s = EmptyString) as Hd.
      { clear -n0. revert s n0. induction n as [|n IH]; intros [|a s] Hn;
          simpl in *; try done; try lia. apply IH. lia. }
      rewrite Hd in E'. simpl in E'. lia.
  - apply Z.leb_gt in E'. split; [done|lia].
Qed.

Lemma pretty_N_char_no_sep d : pretty_N_char d ≠ "/"%char.
Proof. unfold pretty_N_char. by repeat case_match. Qed.

Lemma pretty_N_go_no_sep x s :
  rfind "/" s = -1 → rfind "/" (pretty_N_go x s) = -1.
Proof.
  revert s. induction (N.lt_wf_0 x) as [x _ IH]; intros s Hs.
  assert (x = 0 ∨ 0 < x)%N as [->|Hx] by lia.
  - by rewrite pretty_N_go_0.
  - rewrite pretty_N_go_step by done. apply IH.
    + by apply N.div_lt.
    + simpl. rewrite Hs. simpl.
      rewrite decide_False; [done|apply pretty_N_char_no_sep].
Qed.

Lemma pretty_N_no_sep (x : N) : rfind "/" (pretty x) = -1.
Proof.
  unfold pretty, pretty_N. case_decide; [done|].
  by apply pretty_N_go_no_sep.
Qed.

Lemma str_no_sep k : rfind "/" (str k) = -1.
Proof.
  unfold str, pretty, pretty_Z. destruct k as [|p|p].
  - done.
  - apply pretty_N_no_sep.
  - apply rfind_absent_app; [done|apply pretty_N_no_sep].
Qed.

(** The head of a path is the head of the path of each of its chunks. *)
Lemma head_chunk path stem ext k :
  splitext path = (stem, ext) →
  let out := stem +:+ "-" +:+ str k +:+ ext in
  rfind "/" out = rfind "/" path
  ∧ slice_to (Z.to_nat (rfind "/" path + 1)) out
    = slice_to (Z.to_nat (rfind "/" path + 1)) path.
Proof.
  intros Hsplit. cbv zeta. unfold splitext in Hsplit. cbv zeta in Hsplit.
  pose proof (rfind_ge "/" path) as Hge.
  pose proof (rfind_lt "/" path) as Hlt.
  destruct (_ && _) eqn:Hc in Hsplit; injection Hsplit as <- <-.
  - apply andb_true_iff in Hc as [Hc _]. apply Z.ltb_lt in Hc.
    destruct (rfind_cut "/" path (Z.to_nat (rfind "." path)) ltac:(lia))
      as [Htake Hdrop].
    pose proof (rfind_lt "." path) as Hdot.
    assert (rfind "/" ("-" +:+ str k +:+ slice_from (Z.to_nat (rfind "." path)) path) = -1)
      as Hrest.
    { apply (rfind_absent_app _ "-"); [done|].
      apply rfind_absent_app; [apply str_no_sep|done]. }
    split.
    + by rewrite rfind_app_absent.
    + rewrite slice_to_app_le, slice_to_twice; [done|lia|].
      rewrite length_slice_to. lia.
  - assert (rfind "/" ("-" +:+ str k +:+ EmptyString) = -1) as Hrest.
    { apply (rfind_absent_app _ "-"); [done|].
      apply rfind_absent_app; [apply str_no_sep|done]. }
    split.
    + by rewrite rfind_app_absent.
    + rewrite slice_to_app_le; [done|lia].
Qed.

Lemma dirname_chunk path k :
  dirname ((splitext path).1 +:+ "-" +:+ str k +:+ (splitext path).2)
  = dirname path.
Proof.
  destruct (splitext path) as [stem ext] eqn:Hsplit. simpl.
  destruct (head_chunk path stem ext k Hsplit) as [Hr Ht].
  unfold dirname. by rewrite Hr, Ht.
Qed.

End TextFacts.

(* ===================================================================== *)
(** ** Facts about SplitFile.py *)
(* ===================================================================== *)

Module SplitFileFacts.
Import Text TextFacts SplitFile.

(** *** Running the primitives *)

Lemma bind_Ok {A B} (m : M A) (k : A → M B) w a w' :
  m w = (Ok a, w') → bind m k w = k a w'.
Proof. unfold bind. by intros ->. Qed.

Lemma bind_Raised {A B} (m : M A) (k : A → M B) w w' :
  m w = (Raised, w') → bind m k w = (Raised, w').
Proof. unfold bind. by intros ->. Qed.

Lemma alter_Some (f : string → string) (fs : gmap string string) path text :
  fs !! path = Some text → alter f path fs = <[path := f text]> fs.
Proof.
  intros H. apply map_eq. intros p. rewrite lookup_alter, lookup_insert.
  destruct (decide (path = p)) as [->|]; [by rewrite H|done].
Qed.

Lemma writelines_Ok path lines w text :
  contents w !! path = Some text →
  writelines path lines w =
    (Ok tt, World (<[path := text +:+ join lines]> (contents w))
                  (protected w) (console w)).
Proof.
  revert w text. induction lines as [|line lines IH]; intros w text H; simpl.
  - unfold ret. rewrite sapp_empty_r, insert_id by done. by destruct w.
  - erewrite bind_Ok by reflexivity. erewrite IH; simpl.
    + rewrite (alter_Some _ _ _ _ H), insert_insert_eq.
      by rewrite join_cons, sapp_assoc.
    + rewrite (alter_Some _ _ _ _ H). apply lookup_insert_eq.
Qed.

Lemma write_Ok path s w text :
  contents w !! path = Some text →
  write path s w =
    (Ok tt, World (<[path := text +:+ s]> (contents w))
                  (protected w) (console w)).
Proof. intros H. unfold write. by rewrite (alter_Some _ _ _ _ H). Qed.

Section Splitter.
Variable P : list string.
Variable max_lines : Z.

Lemma start_output_Ok name w :
  name ∉ protected w →
  start_output P name w =
    (Ok tt, World (<[name := join P]> (contents w)) (protected w)
                  (console w ++ [PrintGenerating name; PrintPreamble P])).
Proof.
  intros H. unfold start_output.
  erewrite bind_Ok by reflexivity.
  erewrite bind_Ok; cycle 1.
  { unfold open_w. simpl. rewrite decide_False by done. reflexivity. }
  erewrite bind_Ok by reflexivity.
  erewrite writelines_Ok; simpl; [|apply lookup_insert_eq].
  by rewrite insert_insert_eq, <- app_assoc.
Qed.

Lemma start_output_Raised name w :
  name ∈ protected w →
  start_output P name w =
    (Raised, World (contents w) (protected w)
                   (console w ++ [PrintGenerating name])).
Proof.
  intros H. unfold start_output.
  erewrite bind_Ok by reflexivity.
  erewrite bind_Raised; [done|].
  unfold open_w. simpl. by rewrite decide_True.
Qed.

Lemma layout_head opened cur c fp :
  ∃ cur' rest, layout max_lines opened cur c fp = (opened, cur') :: rest.
Proof.
  revert cur c. induction fp as [|line fp IH]; intros cur c; simpl; [eauto|].
  case_match; eauto.
Qed.

Lemma write_all_insert parts opened cur c fp fs text :
  write_all P max_lines parts (layout max_lines opened cur c fp)
    (<[output_name parts opened max_lines := text]> fs)
  = write_all P max_lines parts (layout max_lines opened cur c fp) fs.
Proof.
  destruct (layout_head opened cur c fp) as (cur' & rest & ->).
  unfold write_all, chunk_path; simpl. by rewrite insert_insert_eq.
Qed.

Lemma read_loop_layout parts fp : ∀ opened cur c w,
  Forall (λ line, line ≠ EmptyString) fp →
  contents w !! output_name parts opened max_lines = Some (join P +:+ join cur) →
  (∀ k, chunk_name parts k ∉ protected w) →
  ∃ evs,
    read_loop P max_lines parts fp (output_name parts opened max_lines) c w
    = (Ok (c + Z.of_nat (length fp) + 1),
       World (write_all P max_lines parts
                (layout max_lines opened cur c fp) (contents w))
             (protected w) (console w ++ evs))
    ∧ generated evs
      = chunk_path max_lines parts <$>
            tail (layout max_lines opened cur c fp)
    ∧ separators evs = fst <$> (tail (layout max_lines opened cur c fp)).
Proof.
  induction fp as [|line fp IH]; intros opened cur c w Hne Hcur Hprot.
  - exists []. simpl. unfold close, bind, ret, write_all, chunk_path, chunk_text.
    simpl. rewrite insert_id by done. rewrite app_nil_r.
    split_and!; [|done..]. f_equal; [f_equal; lia|by destruct w].
  - inversion Hne as [|?? Hline Hne']; subst.
    cbn [read_loop layout]. rewrite decide_False by done.
    erewrite bind_Ok by reflexivity.
    erewrite bind_Ok; [|by apply write_Ok].
    set (w1 := World _ _ _).
    destruct ((c + 1) `mod` max_lines =? 0) eqn:Hmod.
    + erewrite bind_Ok by reflexivity. erewrite bind_Ok by reflexivity.
      erewrite bind_Ok; [|apply start_output_Ok; simpl; apply Hprot].
      set (w2 := World _ _ _).
      destruct (IH (c + 1) [] (c + 1) w2 Hne') as (evs & Hrun & Hgen & Hsep).
      { subst w2. simpl. rewrite lookup_insert_eq. by rewrite sapp_empty_r. }
      { done. }
      exists (PrintLine line :: PrintSeparator (c + 1)
              :: PrintGenerating (output_name parts (c + 1) max_lines)
              :: PrintPreamble P :: evs).
      rewrite Hrun. subst w2 w1. simpl.
      split_and!.
      * f_equal; [f_equal; lia|]. f_equal.
        -- rewrite write_all_insert. unfold write_all at 2. simpl.
           unfold chunk_path at 2, chunk_text at 2. simpl.
           by rewrite join_app, join_cons, sapp_empty_r, sapp_assoc.
        -- by rewrite <- !app_assoc.
      * destruct (layout_head (c + 1) [] (c + 1) fp) as (cur' & rest & Hl).
        rewrite Hl in *. simpl in *. by rewrite Hgen.
      * destruct (layout_head (c + 1) [] (c + 1) fp) as (cur' & rest & Hl).
        rewrite Hl in *. simpl in *. by rewrite Hsep.
    + destruct (IH opened (cur ++ [line]) (c + 1) w1 Hne') as (evs & Hrun & Hgen & Hsep).
      { subst w1. simpl. rewrite lookup_insert_eq.
        by rewrite join_app, join_cons, sapp_empty_r, sapp_assoc. }
      { done. }
      exists (PrintLine line :: evs).
      rewrite Hrun. subst w1. simpl. split_and!; [|done..].
      f_equal; [f_equal; lia|]. f_equal.
      * by rewrite write_all_insert.
      * by rewrite <- !app_assoc.
Qed.


(** *** The chunks *)

Lemma layout_lines opened cur c fp :
  concat (snd <$> layout max_lines opened cur c fp) = cur ++ fp.
Proof.
  revert opened cur c. induction fp as [|line fp IH]; intros opened cur c; simpl.
  - by rewrite !app_nil_r.
  - case_match; simpl; rewrite IH; simpl; by rewrite <- ?app_assoc.
Qed.

Lemma div_succ_boundary c :
  0 < max_lines → (c + 1) `mod` max_lines = 0 →
  (c + 1) `div` max_lines = c `div` max_lines + 1.
Proof.
  intros Hm H.
  pose proof (Z.div_mod (c + 1) max_lines ltac:(lia)) as E1.
  pose proof (Z.div_mod c max_lines ltac:(lia)) as E2.
  pose proof (Z.mod_pos_bound c max_lines Hm). nia.
Qed.

Lemma div_succ_inside c :
  0 < max_lines → (c + 1) `mod` max_lines ≠ 0 →
  (c + 1) `div` max_lines = c `div` max_lines.
Proof.
  intros Hm H.
  pose proof (Z.div_mod (c + 1) max_lines ltac:(lia)) as E1.
  pose proof (Z.div_mod c max_lines ltac:(lia)) as E2.
  pose proof (Z.mod_pos_bound c max_lines Hm).
  pose proof (Z.mod_pos_bound (c + 1) max_lines Hm). nia.
Qed.

Lemma mod_succ_inside c :
  0 < max_lines → (c + 1) `mod` max_lines ≠ 0 →
  (c + 1) `mod` max_lines = c `mod` max_lines + 1.
Proof.
  intros Hm H. pose proof (div_succ_inside c Hm H) as E.
  pose proof (Z.div_mod (c + 1) max_lines ltac:(lia)) as E1.
  pose proof (Z.div_mod c max_lines ltac:(lia)) as E2. nia.
Qed.

Lemma mod_succ_boundary c :
  0 < max_lines → (c + 1) `mod` max_lines = 0 →
  c `mod` max_lines = max_lines - 1.
Proof.
  intros Hm H. pose proof (div_succ_boundary c Hm H) as E.
  pose proof (Z.div_mod (c + 1) max_lines ltac:(lia)) as E1.
  pose proof (Z.div_mod c max_lines ltac:(lia)) as E2. nia.
Qed.

(** The chunk indices are consecutive, from the quotient of the counter at
    which the first file was opened. *)
Lemma layout_indices opened cur c fp :
  0 < max_lines → opened `div` max_lines = c `div` max_lines →
  (λ chunk, chunk.1 `div` max_lines) <$> layout max_lines opened cur c fp
  = seqZ (c `div` max_lines)
         (Z.of_nat (length (layout max_lines opened cur c fp))).
Proof.
  intros Hm. revert opened cur c.
  induction fp as [|line fp IH]; intros opened cur c Hq; simpl.
  - by rewrite Hq.
  - destruct ((c + 1) `mod` max_lines =? 0) eqn:Hmod.
    + apply Z.eqb_eq in Hmod. simpl. rewrite IH by done.
      rewrite (seqZ_cons (c `div` max_lines)) by lia.
      rewrite Hq, (div_succ_boundary c) by done.
      f_equal. f_equal; lia.
    + apply Z.eqb_neq in Hmod. rewrite IH.
      * by rewrite (div_succ_inside c).
      * by rewrite (div_succ_inside c).
Qed.

(** Every file but the first is opened at a multiple of [max_lines]. *)
Lemma layout_boundaries opened cur c fp :
  Forall (λ chunk : Z * list string, chunk.1 `mod` max_lines = 0)
         (tail (layout max_lines opened cur c fp)).
Proof.
  revert opened cur c.
  induction fp as [|line fp IH]; intros opened cur c; simpl; [constructor|].
  destruct ((c + 1) `mod` max_lines =? 0) eqn:Hmod; [|apply IH].
  apply Z.eqb_eq in Hmod. simpl.
  destruct (layout_head (c + 1) [] (c + 1) fp) as (cur' & rest & Hl).
  specialize (IH (c + 1) [] (c + 1)). rewrite Hl in *. simpl in *.
  by constructor.
Qed.

Lemma layout_length opened cur c fp :
  0 < max_lines →
  Z.of_nat (length (layout max_lines opened cur c fp))
  = (c + Z.of_nat (length fp)) `div` max_lines - c `div` max_lines + 1.
Proof.
  intros Hm. revert opened cur c.
  induction fp as [|line fp IH]; intros opened cur c.
  - simpl. rewrite Z.add_0_r. lia.
  - cbn [layout length].
    replace (c + Z.of_nat (S (length fp))) with (c + 1 + Z.of_nat (length fp)) by lia.
    destruct ((c + 1) `mod` max_lines =? 0) eqn:Hmod.
    + apply Z.eqb_eq in Hmod. cbn [length].
      rewrite Nat2Z.inj_succ, IH, (div_succ_boundary c) by done. lia.
    + apply Z.eqb_neq in Hmod. rewrite IH, (div_succ_inside c) by done. lia.
Qed.

(** Sizes, when the open file holds [count mod max_lines] lines: every chunk
    but the last is full and the last one is not. *)
Lemma layout_sizes opened cur c fp :
  0 < max_lines → Z.of_nat (length cur) = c `mod` max_lines →
  ∃ front final,
    layout max_lines opened cur c fp = front ++ [final]
    ∧ Forall (λ chunk : Z * list string,
                Z.of_nat (length chunk.2) = max_lines) front
    ∧ Z.of_nat (length final.2)
      = (c + Z.of_nat (length fp)) `mod` max_lines.
Proof.
  intros Hm. revert opened cur c.
  induction fp as [|line fp IH]; intros opened cur c Hcur.
  - exists [], (opened, cur). simpl. rewrite Z.add_0_r. by repeat split.
  - cbn [layout length].
    replace (c + Z.of_nat (S (length fp))) with (c + 1 + Z.of_nat (length fp)) by lia.
    destruct ((c + 1) `mod` max_lines =? 0) eqn:Hmod.
    + apply Z.eqb_eq in Hmod.
      destruct (IH (c + 1) [] (c + 1)) as (front & final & -> & Hfront & Hfinal).
      { by rewrite Hmod. }
      exists ((opened, cur ++ [line]) :: front), final. split_and!; [done| |done].
      constructor; [|done]. simpl. rewrite length_app. simpl.
      rewrite (mod_succ_boundary c) in Hcur by done. lia.
    + apply Z.eqb_neq in Hmod.
      destruct (IH opened (cur ++ [line]) (c + 1)) as (front & final & -> & Hfront & Hfinal).
      { rewrite length_app. simpl. rewrite (mod_succ_inside c) by done. lia. }
      by exists front, final.
Qed.


Lemma layout_opened_ge opened cur c fp :
  opened ≤ c →
  Forall (λ chunk : Z * list string, opened ≤ chunk.1)
         (layout max_lines opened cur c fp).
Proof.
  revert opened cur c.
  induction fp as [|line fp IH]; intros opened cur c Hle; simpl.
  - by repeat constructor.
  - case_match.
    + constructor; [done|].
      eapply Forall_impl; [apply IH; lia|]. simpl. intros; lia.
    + apply IH. lia.
Qed.

(** *** Paths of the chunks *)

Global Instance chunk_name_inj parts : Inj (=) (=) (chunk_name parts).
Proof.
  intros i j H. unfold chunk_name in H.
  apply (inj (String.app _)) in H. apply (inj (String.app _)) in H.
  apply sapp_inj_r in H. by apply str_inj.
Qed.

Lemma chunk_name_length parts k :
  (String.length (parts.1 +:+ parts.2) < String.length (chunk_name parts k))%nat.
Proof. unfold chunk_name. rewrite !length_sapp. simpl. lia. Qed.

(** An output file is never the input file it is cut from, so the lines
    still to be read are not affected by what the loop writes. *)
Lemma chunk_name_neq_input path k : chunk_name (splitext path) k ≠ path.
Proof.
  intros H. pose proof (chunk_name_length (splitext path) k) as Hlen.
  rewrite splitext_join, H in Hlen. lia.
Qed.

Lemma chunk_paths parts opened cur c fp :
  0 < max_lines → 0 ≤ opened ≤ c →
  opened `div` max_lines = c `div` max_lines →
  chunk_path max_lines parts <$> layout max_lines opened cur c fp
  = chunk_name parts
    <$> seqZ (c `div` max_lines)
             (Z.of_nat (length (layout max_lines opened cur c fp))).
Proof.
  intros Hm Hc Hq. rewrite <- layout_indices by done.
  rewrite <- list_fmap_compose. apply Forall_fmap_ext_1.
  eapply Forall_impl; [apply (layout_opened_ge opened cur c fp); lia|].
  intros [m ch] Hle. unfold chunk_path, output_name. simpl in *.
  by rewrite Z.quot_div_nonneg by lia.
Qed.

Lemma chunk_paths_NoDup parts opened cur c fp :
  0 < max_lines → 0 ≤ opened ≤ c →
  opened `div` max_lines = c `div` max_lines →
  NoDup (chunk_path max_lines parts <$> layout max_lines opened cur c fp).
Proof.
  intros. rewrite chunk_paths by done.
  apply (NoDup_fmap_2 _), NoDup_seqZ.
Qed.

Lemma write_all_lookup_other parts chunks fs p :
  p ∉ chunk_path max_lines parts <$> chunks →
  write_all P max_lines parts chunks fs !! p = fs !! p.
Proof.
  revert fs. induction chunks as [|e chunks IH]; intros fs Hp; [done|].
  rewrite fmap_cons, not_elem_of_cons in Hp. destruct Hp as [Hne Hp].
  unfold write_all in *. simpl. rewrite IH by done.
  by rewrite lookup_insert_ne.
Qed.

Lemma write_all_lookup parts chunks fs chunk :
  NoDup (chunk_path max_lines parts <$> chunks) → chunk ∈ chunks →
  write_all P max_lines parts chunks fs !! chunk_path max_lines parts chunk
  = Some (chunk_text P chunk).
Proof.
  revert fs. induction chunks as [|e chunks IH]; intros fs Hnd Hin.
  - by apply elem_of_nil in Hin.
  - rewrite fmap_cons in Hnd. apply NoDup_cons in Hnd as [Hne Hnd].
    apply elem_of_cons in Hin as [->|Hin].
    + change (write_all P max_lines parts (e :: chunks) fs)
        with (write_all P max_lines parts chunks
                (<[chunk_path max_lines parts e := chunk_text P e]> fs)).
      rewrite write_all_lookup_other by done. apply lookup_insert_eq.
    + by apply IH.
Qed.

(** *** One input file *)

Lemma process_file_layout path c w text :
  contents w !! path = Some text →
  (∀ k, chunk_name (splitext path) k ∉ protected w) →
  ∃ evs,
    process_file P max_lines path c w
    = (Ok (c + Z.of_nat (length (readlines text)) + 1),
       World (write_all P max_lines (splitext path)
                (layout max_lines c [] c (readlines text)) (contents w))
             (protected w) (console w ++ evs))
    ∧ generated evs
      = chunk_path max_lines (splitext path)
        <$> layout max_lines c [] c (readlines text)
    ∧ separators evs = fst <$> tail (layout max_lines c [] c (readlines text)).
Proof.
  intros Htext Hprot. unfold process_file.
  erewrite bind_Ok; [|unfold open_r; by rewrite Htext].
  erewrite bind_Ok; [|apply start_output_Ok, Hprot].
  set (w1 := World _ _ _).
  destruct (read_loop_layout (splitext path) (readlines text) c [] c w1)
    as (evs & Hrun & Hgen & Hsep).
  { apply readlines_nonempty. }
  { subst w1. simpl. by rewrite lookup_insert_eq, sapp_empty_r. }
  { done. }
  exists (PrintGenerating (output_name (splitext path) c max_lines)
          :: PrintPreamble P :: evs).
  rewrite Hrun. subst w1. simpl. split_and!.
  - f_equal. f_equal; [by rewrite write_all_insert|by rewrite <- app_assoc].
  - destruct (layout_head c [] c (readlines text)) as (cur' & rest & Hl).
    rewrite Hl in *. simpl in *. by rewrite Hgen.
  - done.
Qed.


Lemma process_file_missing path c w :
  contents w !! path = None → process_file P max_lines path c w = (Raised, w).
Proof. intros H. unfold process_file, bind, open_r. by rewrite H. Qed.

(** *** The console is only appended to *)

Lemma appends_ret {A} (a : A) : appends (ret a).
Proof. by intros l w. Qed.

Lemma appends_bind {A B} (m : M A) (k : A → M B) :
  appends m → (∀ a, appends (k a)) → appends (bind m k).
Proof.
  intros Hm Hk l w. unfold bind. rewrite Hm.
  destruct (m w) as [[a|] w']; simpl; [apply Hk|done].
Qed.

Lemma appends_print e : appends (print e).
Proof. intros l w. unfold print, prepend. simpl. by rewrite app_assoc. Qed.

Lemma appends_open_r path : appends (open_r path).
Proof. intros l w. unfold open_r. simpl. by case_match. Qed.

Lemma appends_open_w path : appends (open_w path).
Proof. intros l w. unfold open_w. simpl. by case_decide. Qed.

Lemma appends_write path s : appends (write path s).
Proof. by intros l w. Qed.

Lemma appends_writelines path lines : appends (writelines path lines).
Proof.
  induction lines as [|line lines IH]; simpl.
  - apply appends_ret.
  - apply appends_bind; [apply appends_write|done].
Qed.

Lemma appends_start_output name : appends (start_output P name).
Proof.
  unfold start_output.
  repeat (apply appends_bind; [|intros _]);
    auto using appends_print, appends_open_w, appends_writelines.
Qed.

Lemma appends_read_loop parts fp outfile c :
  appends (read_loop P max_lines parts fp outfile c).
Proof.
  revert outfile c. induction fp as [|line fp IH]; intros outfile c; simpl.
  - apply appends_bind; [apply appends_ret|intros _; apply appends_ret].
  - case_decide.
    + apply appends_bind; [apply appends_ret|intros _; apply appends_ret].
    + apply appends_bind; [apply appends_print|intros _].
      apply appends_bind; [apply appends_write|intros _].
      case_match; [|apply IH].
      apply appends_bind; [apply appends_ret|intros _].
      apply appends_bind; [apply appends_print|intros _].
      apply appends_bind; [apply appends_start_output|intros _]. apply IH.
Qed.

Lemma appends_process_file path c : appends (process_file P max_lines path c).
Proof.
  unfold process_file.
  apply appends_bind; [apply appends_open_r|intros fp].
  apply appends_bind; [apply appends_start_output|intros _].
  apply appends_read_loop.
Qed.

Lemma for_files_prepend inputs c l w :
  for_files P max_lines inputs c (prepend l w)
  = ((for_files P max_lines inputs c w).1,
     prepend l (for_files P max_lines inputs c w).2).
Proof.
  revert c w. induction inputs as [|path inputs IH]; intros c w; simpl; [done|].
  rewrite appends_process_file.
  destruct (process_file P max_lines path c w) as [[c'|] w']; simpl; [apply IH|done].
Qed.

Lemma try_files_prepend inputs l w :
  try_files P max_lines inputs (prepend l w)
  = prepend l (try_files P max_lines inputs w).
Proof.
  unfold try_files. rewrite for_files_prepend.
  destruct (for_files P max_lines inputs 0 w) as [[c|path] w']; simpl; [done|].
  unfold prepend. simpl. by rewrite app_assoc.
Qed.

(** *** The loop over the input files *)

Lemma for_files_app before after c w c1 w1 :
  for_files P max_lines before c w = (Completed c1, w1) →
  for_files P max_lines (before ++ after) c w
  = for_files P max_lines after c1 w1.
Proof.
  revert c w. induction before as [|path before IH]; intros c w H; simpl in *.
  - by injection H as -> ->.
  - destruct (process_file P max_lines path c w) as [[c'|] w']; [by apply IH|done].
Qed.

Lemma for_files_raised path after c w w' :
  process_file P max_lines path c w = (Raised, w') →
  for_files P max_lines (path :: after) c w = (Failed path, w').
Proof. intros H. simpl. by rewrite H. Qed.


(** *** Only the chunks of the input file are written *)

Lemma confined_ret {A} parts (a : A) : confined parts (ret a).
Proof. by intros w. Qed.

Lemma confined_bind {A B} parts (m : M A) (k : A → M B) :
  confined parts m → (∀ a, confined parts (k a)) → confined parts (bind m k).
Proof.
  intros Hm Hk w. unfold bind. destruct (Hm w) as [Hp Hc].
  destruct (m w) as [[a|] w']; simpl in *; [|done].
  destruct (Hk a w') as [Hp' Hc']. split; [congruence|].
  intros p Hne. by rewrite Hc', Hc.
Qed.

Lemma confined_print parts e : confined parts (print e).
Proof. by intros w. Qed.

Lemma confined_open_w parts k : confined parts (open_w (chunk_name parts k)).
Proof.
  intros w. unfold open_w. case_decide; simpl; [done|].
  split; [done|]. intros p Hne. by rewrite lookup_insert_ne.
Qed.

Lemma confined_write parts k s : confined parts (write (chunk_name parts k) s).
Proof.
  intros w. unfold write. simpl. split; [done|].
  intros p Hne. by rewrite lookup_alter_ne.
Qed.

Lemma confined_writelines parts k lines :
  confined parts (writelines (chunk_name parts k) lines).
Proof.
  induction lines as [|line lines IH]; simpl.
  - apply confined_ret.
  - apply confined_bind; [apply confined_write|done].
Qed.

Lemma confined_start_output parts k :
  confined parts (start_output P (chunk_name parts k)).
Proof.
  unfold start_output.
  repeat (apply confined_bind; [|intros _]);
    auto using confined_print, confined_open_w, confined_writelines.
Qed.

Lemma confined_read_loop parts fp k c :
  confined parts (read_loop P max_lines parts fp (chunk_name parts k) c).
Proof.
  revert k c. induction fp as [|line fp IH]; intros k c; simpl.
  - apply confined_bind; [apply confined_ret|intros _; apply confined_ret].
  - case_decide.
    + apply confined_bind; [apply confined_ret|intros _; apply confined_ret].
    + apply confined_bind; [apply confined_print|intros _].
      apply confined_bind; [apply confined_write|intros _].
      case_match; [|apply IH].
      apply confined_bind; [apply confined_ret|intros _].
      apply confined_bind; [apply confined_print|intros _].
      apply confined_bind; [apply confined_start_output|intros _]. apply IH.
Qed.

Lemma confined_open_r parts path : confined parts (open_r path).
Proof. intros w. unfold open_r. by case_match. Qed.

Lemma confined_process_file path c :
  confined (splitext path) (process_file P max_lines path c).
Proof.
  unfold process_file.
  apply confined_bind; [apply confined_open_r|intros fp].
  apply confined_bind; [apply confined_start_output|intros _].
  apply confined_read_loop.
Qed.

End Splitter.
End SplitFileFacts.

Module SplitFileRuns.
Import Text TextFacts SplitFile SplitFileFacts.

Lemma generated_app evs1 evs2 :
  generated (evs1 ++ evs2) = generated evs1 ++ generated evs2.
Proof. apply omap_app. Qed.

Lemma separators_app evs1 evs2 :
  separators (evs1 ++ evs2) = separators evs1 ++ separators evs2.
Proof. apply omap_app. Qed.

(** What [process_file] does to an input file that is there, when its output
    files can be written: the output files carry consecutive indices from
    [count quot max_lines] on, in the order they are opened, and the file of
    index [q + i] holds the preamble followed by the lines of the [i]-th
    chunk. *)
Lemma process_file_chunks P max_lines path c w text :
  0 < max_lines → 0 ≤ c →
  contents w !! path = Some text →
  (∀ k, chunk_name (splitext path) k ∉ protected w) →
  let chunks := snd <$> layout max_lines c [] c (readlines text) in
  ∃ w' evs,
    process_file P max_lines path c w
    = (Ok (c + Z.of_nat (length (readlines text)) + 1), w')
    ∧ protected w' = protected w
    ∧ console w' = console w ++ evs
    ∧ generated evs
      = chunk_name (splitext path)
        <$> seqZ (c `quot` max_lines) (Z.of_nat (length chunks))
    ∧ (∀ (i : nat) lines, chunks !! i = Some lines →
         contents w' !! chunk_name (splitext path) (c `quot` max_lines + Z.of_nat i)
         = Some (join P +:+ join lines))
    ∧ (∀ p, (∀ k, p ≠ chunk_name (splitext path) k) →
         contents w' !! p = contents w !! p).
Proof.
  intros Hm Hc Htext Hprot chunks.
  destruct (process_file_layout P max_lines path c w text Htext Hprot)
    as (evs & Hrun & Hgen & Hsep).
  eexists _, evs. split; [exact Hrun|]. simpl. split_and!; try done.
  - rewrite Hgen, chunk_paths by (done || lia).
    subst chunks. by rewrite length_fmap, Z.quot_div_nonneg by lia.
  - intros i lines Hi. subst chunks.
    apply list_lookup_fmap_Some in Hi as ([m ch] & -> & Hi). simpl.
    pose proof (chunk_paths_NoDup max_lines (splitext path) c [] c
                  (readlines text) Hm ltac:(lia) eq_refl) as Hnd.
    assert ((m, ch) ∈ layout max_lines c [] c (readlines text)) as Hin.
    { by eapply list_elem_of_lookup_2. }
    pose proof (write_all_lookup P max_lines _ _ (contents w) _ Hnd Hin) as Hw.
    assert ((chunk_path max_lines (splitext path)
               <$> layout max_lines c [] c (readlines text)) !! i
            = Some (chunk_path max_lines (splitext path) (m, ch))) as Hp.
    { by rewrite list_lookup_fmap, Hi. }
    rewrite chunk_paths in Hp by (done || lia).
    rewrite list_lookup_fmap in Hp.
    destruct (seqZ _ _ !! i) as [j|] eqn:Hj; [|done].
    apply lookup_seqZ in Hj as [-> _]. simpl in Hp.
    rewrite Z.quot_div_nonneg by lia. injection Hp as ->. exact Hw.
  - intros p Hp.
    pose proof (confined_process_file P max_lines path c w) as [_ Hconf].
    rewrite Hrun in Hconf. simpl in Hconf. by apply Hconf.
Qed.


(** *** The whole run *)

Lemma load_preamble_world args w :
  ∃ evs, (load_preamble args w).2
         = World (contents w) (protected w) (console w ++ evs)
         ∧ generated evs = [] ∧ separators evs = [].
Proof.
  unfold load_preamble. destruct (preamble args) as [path|].
  - case_decide.
    + exists []. simpl. rewrite app_nil_r. by destruct w.
    + unfold open_r. destruct (contents w !! path).
      * exists []. simpl. rewrite app_nil_r. by destruct w.
      * by exists [PrintErrorHeader].
  - exists []. simpl. rewrite app_nil_r. by destruct w.
Qed.

Lemma main_unfold args w :
  main args w
  = try_files (load_preamble args w).1 (max_lines_of args) (files args)
              (load_preamble args w).2.
Proof. unfold main. by destruct (load_preamble args w). Qed.

Lemma main_sole_input args w path c' w' :
  files args = [path] →
  process_file (load_preamble args w).1 (max_lines_of args) path 0
               (load_preamble args w).2 = (Ok c', w') →
  main args w = w'.
Proof.
  intros Hfiles Hrun. rewrite main_unfold, Hfiles.
  unfold try_files. simpl. by rewrite Hrun.
Qed.

(** The sizes of the chunks of an input file whose processing starts with
    the counter at a multiple of [max_lines]. *)
Lemma aligned_chunks max_lines c fp :
  0 < max_lines → c `mod` max_lines = 0 →
  ∃ front final,
    snd <$> layout max_lines c [] c fp = front ++ [final]
    ∧ Forall (λ lines : list string, Z.of_nat (length lines) = max_lines) front
    ∧ Z.of_nat (length final) = Z.of_nat (length fp) `mod` max_lines
    ∧ Z.of_nat (length front)
      = (c + Z.of_nat (length fp)) `div` max_lines - c `div` max_lines.
Proof.
  intros Hm Hc.
  destruct (layout_sizes max_lines c [] c fp Hm) as (front & final & Hl & Hfront & Hfinal).
  { by rewrite Hc. }
  exists (snd <$> front), final.2. split_and!.
  - by rewrite Hl, fmap_app.
  - by apply Forall_fmap.
  - rewrite Hfinal, <- Zplus_mod_idemp_l, Hc. done.
  - pose proof (layout_length max_lines c [] c fp Hm) as Hlen.
    rewrite Hl, length_app in Hlen. simpl in Hlen.
    rewrite length_fmap. lia.
Qed.

Lemma main_sole_chunks args w path text :
  files args = [path] → 0 < max_lines_of args →
  contents w !! path = Some text →
  (∀ k, chunk_name (splitext path) k ∉ protected w) →
  let chunks := snd <$> layout (max_lines_of args) 0 [] 0 (readlines text) in
  generated (console (main args w))
  = generated (console w)
    ++ (chunk_name (splitext path) <$> seqZ 0 (Z.of_nat (length chunks)))
  ∧ (∀ (i : nat) lines, chunks !! i = Some lines →
       contents (main args w) !! chunk_name (splitext path) (Z.of_nat i)
       = Some (join (load_preamble args w).1 +:+ join lines))
  ∧ (∀ p, (∀ k, p ≠ chunk_name (splitext path) k) →
       contents (main args w) !! p = contents w !! p)
  ∧ protected (main args w) = protected w.
Proof.
  intros Hfiles Hm Htext Hprot chunks.
  destruct (load_preamble_world args w) as (evs0 & Hw0 & Hgen0 & _).
  destruct (process_file_chunks (load_preamble args w).1 (max_lines_of args)
              path 0 (load_preamble args w).2 text Hm ltac:(done))
    as (w' & evs & Hrun & Hprot' & Hcons & Hgen & Hlook & Hframe).
  { by rewrite Hw0. }
  { by rewrite Hw0. }
  rewrite (main_sole_input args w path _ w' Hfiles Hrun).
  rewrite Hw0 in Hcons, Hprot', Hframe. simpl in *.
  rewrite Z.quot_0_l in Hgen, Hlook by lia.
  repeat split.
  - rewrite Hcons, !generated_app, Hgen0, Hgen. by rewrite app_nil_r.
  - exact Hlook.
  - exact Hframe.
  - exact Hprot'.
Qed.

Lemma demo_unprotected path : ∀ k, chunk_name (splitext path) k ∉ protected demo_world.
Proof. intros k. apply not_elem_of_empty. Qed.

End SplitFileRuns.

(* ===================================================================== *)
(** ** The statements of the specification: SplitFile.py *)
(* ===================================================================== *)

Module SplitFileSpec.
Import Text TextFacts SplitFile SplitFileFacts SplitFileRuns.

(** C1. Lossless split.  An input file that is there is processed with a
    positive [max_lines] and output files that can be written.  Then the
    output files announced for it carry ascending chunk indices, each of
    them holds the preamble followed by the lines of its chunk, which are
    the lines this text has when it is read back, and the chunks, put end to
    end in this order, are the lines of the input file, terminators
    included: joined, they are the text of the input file. *)
Theorem split_roundtrip (P : list string) (max_lines : Z) (path : string)
    (c : Z) (w : world) (text : string) :
  0 < max_lines → 0 ≤ c →
  contents w !! path = Some text →
  (∀ k, chunk_name (splitext path) k ∉ protected w) →
  ∃ c' w' evs (chunks : list (list string)),
    process_file P max_lines path c w = (Ok c', w')
    ∧ console w' = console w ++ evs
    ∧ generated evs
      = chunk_name (splitext path)
        <$> seqZ (c `quot` max_lines) (Z.of_nat (length chunks))
    ∧ (∀ (i : nat) lines, chunks !! i = Some lines →
         contents w' !! chunk_name (splitext path) (c `quot` max_lines + Z.of_nat i)
         = Some (join P +:+ join lines))
    ∧ Forall (λ lines, readlines (join lines) = lines) chunks
    ∧ concat chunks = readlines text
    ∧ join (concat chunks) = text.
Proof.
  intros Hm Hc Htext Hprot.
  destruct (process_file_chunks P max_lines path c w text Hm Hc Htext Hprot)
    as (w' & evs & Hrun & _ & Hcons & Hgen & Hfiles & _).
  eexists _, w', evs, _. split; [exact Hrun|].
  split_and!; [done|exact Hgen|exact Hfiles| | |].
  - apply (chunks_read_back _ text). by rewrite layout_lines.
  - by rewrite layout_lines.
  - rewrite layout_lines. apply join_readlines.
Qed.

Lemma split_roundtrip_witness :
  ∃ c' w' evs (chunks : list (list string)),
    process_file [line "HDR"] 2 "d/notes.log" 0 demo_world = (Ok c', w')
    ∧ console w' = console demo_world ++ evs
    ∧ generated evs
      = chunk_name (splitext "d/notes.log")
        <$> seqZ (0 `quot` 2) (Z.of_nat (length chunks))
    ∧ (∀ (i : nat) lines, chunks !! i = Some lines →
         contents w' !! chunk_name (splitext "d/notes.log") (0 `quot` 2 + Z.of_nat i)
         = Some (join [line "HDR"] +:+ join lines))
    ∧ Forall (λ lines, readlines (join lines) = lines) chunks
    ∧ concat chunks = readlines (line "x" +:+ line "y" +:+ "z")
    ∧ join (concat chunks) = line "x" +:+ line "y" +:+ "z".
Proof.
  apply (split_roundtrip [line "HDR"] 2 "d/notes.log" 0 demo_world
           (line "x" +:+ line "y" +:+ "z")).
  - lia.
  - lia.
  - reflexivity.
  - apply demo_unprotected.
Defined.

(** The claim of C2 fails at both ends.  A sole input of two lines cut with
    [max_lines = 2]: the last output file is opened at the boundary and
    stays without a content line.  Two inputs in one run: the counter is at
    3 when the second one is opened, and its first output file, which is not
    its last, receives one line instead of two. *)
Lemma chunk_size_counterexample :
  let sole := main {| files := ["a.txt"]; preamble := None; size := Some 2 |}
                   demo_world in
  let both := main {| files := ["a.txt"; "b.txt"]; preamble := None;
                      size := Some 2 |} demo_world in
  (generated (console sole) = ["a-0.txt"; "a-1.txt"]
   ∧ contents sole !! "a-1.txt" = Some EmptyString
   ∧ readlines EmptyString = [])
  ∧ (generated (console both)
     = ["a-0.txt"; "a-1.txt"; "b-1.txt"; "b-2.txt"; "b-3.txt"]
     ∧ contents both !! "b-1.txt" = Some (line "m1")
     ∧ readlines (line "m1") = [line "m1"]).
Proof. vm_compute. repeat split. Qed.

(** C2, as the code has it.  When the processing of an input file starts with
    the counter at a multiple of [max_lines] (at 0 for the first input file
    of a run), every output file but the last holds exactly [max_lines]
    content lines after the preamble, and the last one holds the remaining
    [n mod max_lines] lines: between 0 and [max_lines - 1].  The lines of a
    file are the lines its text has when it is read back. *)
Theorem chunk_sizes_aligned (P : list string) (max_lines : Z) (path : string)
    (c : Z) (w : world) (text : string) :
  0 < max_lines → 0 ≤ c → c `mod` max_lines = 0 →
  contents w !! path = Some text →
  (∀ k, chunk_name (splitext path) k ∉ protected w) →
  ∃ c' w' evs (front : list (list string)) (final : list string),
    process_file P max_lines path c w = (Ok c', w')
    ∧ console w' = console w ++ evs
    ∧ generated evs
      = chunk_name (splitext path)
        <$> seqZ (c `quot` max_lines) (Z.of_nat (length front) + 1)
    ∧ (∀ (i : nat) lines, front !! i = Some lines →
         contents w' !! chunk_name (splitext path) (c `quot` max_lines + Z.of_nat i)
         = Some (join P +:+ join lines)
         ∧ Z.of_nat (length lines) = max_lines)
    ∧ contents w' !! chunk_name (splitext path)
                       (c `quot` max_lines + Z.of_nat (length front))
      = Some (join P +:+ join final)
    ∧ Z.of_nat (length final)
      = Z.of_nat (length (readlines text)) `mod` max_lines
    ∧ 0 ≤ Z.of_nat (length final) < max_lines
    ∧ Forall (λ lines, readlines (join lines) = lines) (front ++ [final])
    ∧ concat front ++ final = readlines text.
Proof.
  intros Hm Hc Hal Htext Hprot.
  destruct (process_file_chunks P max_lines path c w text Hm Hc Htext Hprot)
    as (w' & evs & Hrun & _ & Hcons & Hgen & Hfiles & _).
  destruct (aligned_chunks max_lines c (readlines text) Hm Hal)
    as (front & final & Hsplit & Hfront & Hfinal & _).
  rewrite Hsplit in Hgen, Hfiles.
  eexists _, w', evs, front, final. split; [exact Hrun|]. split_and!.
  - done.
  - rewrite Hgen, length_app. simpl. do 2 f_equal. lia.
  - intros i lines Hi. split.
    + apply Hfiles. by apply lookup_app_l_Some.
    + by eapply (Forall_lookup_1 _ _ _ _ Hfront).
  - apply Hfiles. by rewrite list_lookup_middle.
  - done.
  - rewrite Hfinal. by apply Z.mod_pos_bound.
  - rewrite Hfinal. by apply Z.mod_pos_bound.
  - apply (chunks_read_back _ text). by rewrite <- Hsplit, layout_lines.
  - pose proof (layout_lines max_lines c [] c (readlines text)) as Hl.
    rewrite Hsplit, concat_app in Hl. simpl in Hl.
    by rewrite app_nil_r in Hl.
Qed.

Lemma chunk_sizes_aligned_witness :
  ∃ c' w' evs (front : list (list string)) (final : list string),
    process_file [line "HDR"] 2 "b.txt" 0 demo_world = (Ok c', w')
    ∧ console w' = console demo_world ++ evs
    ∧ generated evs
      = chunk_name (splitext "b.txt")
        <$> seqZ (0 `quot` 2) (Z.of_nat (length front) + 1)
    ∧ (∀ (i : nat) lines, front !! i = Some lines →
         contents w' !! chunk_name (splitext "b.txt") (0 `quot` 2 + Z.of_nat i)
         = Some (join [line "HDR"] +:+ join lines)
         ∧ Z.of_nat (length lines) = 2)
    ∧ contents w' !! chunk_name (splitext "b.txt")
                       (0 `quot` 2 + Z.of_nat (length front))
      = Some (join [line "HDR"] +:+ join final)
    ∧ Z.of_nat (length final)
      = Z.of_nat (length (readlines (line "m1" +:+ line "m2" +:+ line "m3")))
        `mod` 2
    ∧ 0 ≤ Z.of_nat (length final) < 2
    ∧ Forall (λ lines, readlines (join lines) = lines) (front ++ [final])
    ∧ concat front ++ final
      = readlines (line "m1" +:+ line "m2" +:+ line "m3").
Proof.
  apply (chunk_sizes_aligned [line "HDR"] 2 "b.txt" 0 demo_world
           (line "m1" +:+ line "m2" +:+ line "m3")).
  - lia.
  - lia.
  - reflexivity.
  - reflexivity.
  - apply demo_unprotected.
Defined.

(** C3. Exact multiple.  A sole input file of [k * max_lines] lines, [k >= 1]:
    the run announces [k + 1] output files, of indices [0] to [k]; the first
    [k] hold the preamble followed by [max_lines] lines each, which together
    are the lines of the input; the last one is the file opened at the
    boundary, closed with the preamble and no content line. *)
Theorem exact_multiple_boundary (args : Args) (w : world) (path text : string)
    (k : Z) :
  files args = [path] → 0 < max_lines_of args → 1 ≤ k →
  Z.of_nat (length (readlines text)) = k * max_lines_of args →
  contents w !! path = Some text →
  (∀ i, chunk_name (splitext path) i ∉ protected w) →
  ∃ chunks : list (list string),
    generated (console (main args w))
    = generated (console w) ++ (chunk_name (splitext path) <$> seqZ 0 (k + 1))
    ∧ Z.of_nat (length chunks) = k
    ∧ Forall (λ lines, Z.of_nat (length lines) = max_lines_of args) chunks
    ∧ Forall (λ lines, readlines (join lines) = lines) chunks
    ∧ concat chunks = readlines text
    ∧ (∀ (i : nat) lines, chunks !! i = Some lines →
         contents (main args w) !! chunk_name (splitext path) (Z.of_nat i)
         = Some (join (load_preamble args w).1 +:+ join lines))
    ∧ contents (main args w) !! chunk_name (splitext path) k
      = Some (join (load_preamble args w).1).
Proof.
  intros Hfiles Hm Hk Hn Htext Hprot.
  destruct (main_sole_chunks args w path text Hfiles Hm Htext Hprot)
    as (Hgen & Hlook & _ & _).
  destruct (aligned_chunks (max_lines_of args) 0 (readlines text) Hm eq_refl)
    as (front & final & Hsplit & Hfront & Hfinal & Hlen).
  rewrite Hsplit in Hgen, Hlook.
  rewrite Hn, Z.mod_mul in Hfinal by lia.
  rewrite Z.add_0_l, Hn, Z.div_mul, Z.div_0_l in Hlen by lia.
  assert (final = []) as -> by (destruct final; [done|simpl in Hfinal; lia]).
  exists front. split_and!.
  - rewrite Hgen, length_app. simpl. do 3 f_equal. lia.
  - lia.
  - done.
  - apply (chunks_read_back _ text).
    pose proof (layout_lines (max_lines_of args) 0 [] 0 (readlines text)) as Hl.
    rewrite Hsplit, concat_app in Hl. simpl in Hl.
    by rewrite !app_nil_r in Hl.
  - pose proof (layout_lines (max_lines_of args) 0 [] 0 (readlines text)) as Hl.
    rewrite Hsplit, concat_app in Hl. simpl in Hl.
    by rewrite !app_nil_r in Hl.
  - intros i lines Hi. apply Hlook. by apply lookup_app_l_Some.
  - specialize (Hlook (length front) []).
    rewrite list_lookup_middle in Hlook by done.
    specialize (Hlook eq_refl). rewrite sapp_empty_r in Hlook.
    by replace k with (Z.of_nat (length front)) by lia.
Qed.

Lemma exact_multiple_boundary_witness :
  let args := {| files := ["a.txt"]; preamble := Some "header";
                 size := Some 2 |} in
  ∃ chunks : list (list string),
    generated (console (main args demo_world))
    = generated (console demo_world)
      ++ (chunk_name (splitext "a.txt") <$> seqZ 0 (1 + 1))
    ∧ Z.of_nat (length chunks) = 1
    ∧ Forall (λ lines, Z.of_nat (length lines) = max_lines_of args) chunks
    ∧ Forall (λ lines, readlines (join lines) = lines) chunks
    ∧ concat chunks = readlines (line "l1" +:+ line "l2")
    ∧ (∀ (i : nat) lines, chunks !! i = Some lines →
         contents (main args demo_world)
           !! chunk_name (splitext "a.txt") (Z.of_nat i)
         = Some (join (load_preamble args demo_world).1 +:+ join lines))
    ∧ contents (main args demo_world) !! chunk_name (splitext "a.txt") 1
      = Some (join (load_preamble args demo_world).1).
Proof.
  intros args.
  apply (exact_multiple_boundary args demo_world "a.txt"
           (line "l1" +:+ line "l2") 1).
  - reflexivity.
  - reflexivity.
  - lia.
  - reflexivity.
  - reflexivity.
  - apply demo_unprotected.
Defined.

(** The claim of C4 fails for an input file that is not the first of its
    run.  After "a.txt", of two lines, the counter is at 3, and with
    [max_lines = 2] the first output file of "b.txt" is "b-1.txt": no file
    "b-0.txt" is announced. *)
Lemma first_name_counterexample :
  let w1 := (for_files [] 2 ["a.txt"] 0 demo_world).2 in
  for_files [] 2 ["a.txt"] 0 demo_world = (Completed 3, w1)
  ∧ ∃ w2, process_file [] 2 "b.txt" 3 w1 = (Ok 7, w2)
          ∧ generated (drop (length (console w1)) (console w2))
            = ["b-1.txt"; "b-2.txt"; "b-3.txt"]
          ∧ chunk_name (splitext "b.txt") 0 = "b-0.txt"
          ∧ "b-0.txt" ∉ generated (console w2).
Proof.
  split; [by vm_compute|]. eexists. split; [by vm_compute|].
  split; [by vm_compute|]. split; [by vm_compute|].
  vm_compute. intros H. repeat (apply elem_of_cons in H as [H|H]; [done|]).
  by apply elem_of_nil in H.
Qed.

(** C4, as the code has it.  The output files of an input file are named
    stem, "-", chunk index, extension, where stem and extension are the two
    parts of the input path: they are in the directory of the input file.
    The first one carries the index [count quot max_lines], for the value of
    the counter when the input file is opened, which is 0 as long as the
    counter is below [max_lines] and so for the first input file of a run.
    A rotation happens at a multiple of [max_lines] and the file it opens
    carries the quotient as index; the indices are consecutive. *)
Theorem output_naming (P : list string) (max_lines : Z) (path : string)
    (c : Z) (w : world) (text : string) :
  0 < max_lines → 0 ≤ c →
  contents w !! path = Some text →
  (∀ k, chunk_name (splitext path) k ∉ protected w) →
  let name k := (splitext path).1 +:+ "-" +:+ str k +:+ (splitext path).2 in
  ∃ c' w' evs first rotated,
    process_file P max_lines path c w = (Ok c', w')
    ∧ console w' = console w ++ evs
    ∧ generated evs = first :: rotated
    ∧ first = name (c `quot` max_lines)
    ∧ (c < max_lines → first = name 0)
    ∧ rotated = (λ count, name (count `quot` max_lines)) <$> separators evs
    ∧ Forall (λ count, count `mod` max_lines = 0) (separators evs)
    ∧ first :: rotated
      = name <$> seqZ (c `quot` max_lines) (Z.of_nat (length (first :: rotated)))
    ∧ Forall (λ output_filename, dirname output_filename = dirname path)
             (first :: rotated).
Proof.
  intros Hm Hc Htext Hprot name.
  destruct (process_file_layout P max_lines path c w text Htext Hprot)
    as (evs & Hrun & Hgen & Hsep).
  destruct (layout_head max_lines c [] c (readlines text)) as (cur' & rest & Hl).
  pose proof (chunk_paths max_lines (splitext path) c [] c (readlines text)
                Hm ltac:(lia) eq_refl) as Hpaths.
  pose proof (layout_boundaries max_lines c [] c (readlines text)) as Hb.
  rewrite Hl in Hgen, Hsep, Hpaths, Hb. simpl in Hgen, Hsep, Hb.
  rewrite <- Z.quot_div_nonneg in Hpaths by lia.
  eexists _, _, evs, _, _. split; [exact Hrun|].
  split; [done|]. split; [exact Hgen|]. split_and!.
  - done.
  - intros Hlt. unfold chunk_path, output_name. simpl.
    by rewrite Z.quot_small by lia.
  - rewrite Hsep, <- list_fmap_compose. reflexivity.
  - rewrite Hsep. by apply Forall_fmap.
  - rewrite <- !fmap_cons, length_fmap. exact Hpaths.
  - rewrite <- fmap_cons, Hpaths. apply Forall_fmap, Forall_forall.
    intros k _. apply dirname_chunk.
Qed.

Lemma output_naming_witness :
  let name k := (splitext "d/notes.log").1 +:+ "-" +:+ str k
                +:+ (splitext "d/notes.log").2 in
  ∃ c' w' evs first rotated,
    process_file [] 2 "d/notes.log" 0 demo_world = (Ok c', w')
    ∧ console w' = console demo_world ++ evs
    ∧ generated evs = first :: rotated
    ∧ first = name (0 `quot` 2)
    ∧ (0 < 2 → first = name 0)
    ∧ rotated = (λ count, name (count `quot` 2)) <$> separators evs
    ∧ Forall (λ count, count `mod` 2 = 0) (separators evs)
    ∧ first :: rotated
      = name <$> seqZ (0 `quot` 2) (Z.of_nat (length (first :: rotated)))
    ∧ Forall (λ output_filename, dirname output_filename = dirname "d/notes.log")
             (first :: rotated).
Proof.
  apply (output_naming [] 2 "d/notes.log" 0 demo_world
           (line "x" +:+ line "y" +:+ "z")).
  - lia.
  - lia.
  - reflexivity.
  - apply demo_unprotected.
Defined.

(** The claim of C5 fails on every input file: "a.txt" has two lines, and
    after it the counter, which started at 0, is at 3. *)
Lemma counter_counterexample :
  ∃ c' w', process_file [] 50 "a.txt" 0 demo_world = (Ok c', w')
           ∧ contents demo_world !! "a.txt" = Some (line "l1" +:+ line "l2")
           ∧ length (readlines (line "l1" +:+ line "l2")) = 2%nat
           ∧ c' - 0 ≠ 2.
Proof. eexists _, _. split; [by vm_compute|]. by vm_compute. Qed.

(** C5, as the code has it.  [count] is incremented once before every call
    of [fp.readline()], the last call included, the one that returns the
    empty string at the end of the input: after an input file of [n] lines
    the counter has increased by [n + 1]. *)
Theorem counter_after_file (P : list string) (max_lines : Z) (path : string)
    (c : Z) (w : world) (text : string) :
  contents w !! path = Some text →
  (∀ k, chunk_name (splitext path) k ∉ protected w) →
  ∃ w', process_file P max_lines path c w
        = (Ok (c + Z.of_nat (length (readlines text)) + 1), w').
Proof.
  intros Htext Hprot.
  destruct (process_file_layout P max_lines path c w text Htext Hprot)
    as (evs & Hrun & _). eauto.
Qed.

Lemma counter_after_file_witness :
  ∃ w', process_file [] 50 "a.txt" 0 demo_world
        = (Ok (0 + Z.of_nat (length (readlines (line "l1" +:+ line "l2"))) + 1),
           w').
Proof.
  apply (counter_after_file [] 50 "a.txt" 0 demo_world).
  - reflexivity.
  - apply demo_unprotected.
Defined.

(** C6. Preamble placement.  The lines of the input file are cut into
    chunks, one for each output file opened for it: put end to end the
    chunks are the lines of the input file, and each chunk is what its
    joined text reads back as.  Every output file holds, before the lines of
    its chunk and nothing else, the preamble that was loaded: the lines of
    the header file, which joined are its text, when a header file is given
    and can be read; and no line at all when none is given, so that the file
    is the lines of its chunk.  The first output file is the file of
    position 0. *)
Theorem preamble_placement (args : Args) (w : world) (path : string) (c : Z)
    (text : string) :
  0 < max_lines_of args → 0 ≤ c →
  contents w !! path = Some text →
  (∀ k, chunk_name (splitext path) k ∉ protected w) →
  let the_preamble := (load_preamble args w).1 in
  let w0 := (load_preamble args w).2 in
  let q := c `quot` max_lines_of args in
  ∃ c' w' evs (chunks : list (list string)),
    process_file the_preamble (max_lines_of args) path c w0 = (Ok c', w')
    ∧ console w' = console w0 ++ evs
    ∧ generated evs
      = chunk_name (splitext path) <$> seqZ q (Z.of_nat (length chunks))
    ∧ (0 < length chunks)%nat
    ∧ concat chunks = readlines text
    ∧ Forall (λ lines, readlines (join lines) = lines) chunks
    ∧ (∀ (i : nat) lines, chunks !! i = Some lines →
         contents w' !! chunk_name (splitext path) (q + Z.of_nat i)
         = Some (join the_preamble +:+ join lines))
    ∧ (∀ header header_text,
         preamble args = Some header → header ≠ EmptyString →
         contents w !! header = Some header_text →
         the_preamble = readlines header_text
         ∧ join the_preamble = header_text)
    ∧ (preamble args = None →
       the_preamble = []
       ∧ ∀ (i : nat) lines, chunks !! i = Some lines →
           contents w' !! chunk_name (splitext path) (q + Z.of_nat i)
           = Some (join lines)).
Proof.
  intros Hm Hc Htext Hprot P w0 q.
  destruct (load_preamble_world args w) as (evs0 & Hw0 & _).
  destruct (process_file_chunks P (max_lines_of args) path c w0 text Hm Hc)
    as (w' & evs & Hrun & _ & Hcons & Hgen & Hfiles & _).
  { subst w0. by rewrite Hw0. }
  { subst w0. by rewrite Hw0. }
  eexists _, w', evs, _. split; [exact Hrun|].
  split; [done|]. split; [exact Hgen|]. split_and!.
  - destruct (layout_head (max_lines_of args) c [] c (readlines text))
      as (cur' & rest & ->). simpl. lia.
  - by rewrite layout_lines.
  - apply (chunks_read_back _ text). by rewrite layout_lines.
  - exact Hfiles.
  - intros header header_text Hpre Hne Hheader. subst P.
    unfold load_preamble, open_r. rewrite Hpre, decide_False, Hheader by done.
    simpl. split; [done|apply join_readlines].
  - intros Hnone.
    assert (P = []) as HP by (subst P; unfold load_preamble; by rewrite Hnone).
    split; [exact HP|].
    intros i lines Hi. etrans; [exact (Hfiles i lines Hi)|]. by rewrite HP.
Qed.

Lemma preamble_placement_witness :
  let args := {| files := ["b.txt"]; preamble := Some "header";
                 size := Some 2 |} in
  let the_preamble := (load_preamble args demo_world).1 in
  let w0 := (load_preamble args demo_world).2 in
  let q := 0 `quot` max_lines_of args in
  ∃ c' w' evs (chunks : list (list string)),
    process_file the_preamble (max_lines_of args) "b.txt" 0 w0 = (Ok c', w')
    ∧ console w' = console w0 ++ evs
    ∧ generated evs
      = chunk_name (splitext "b.txt") <$> seqZ q (Z.of_nat (length chunks))
    ∧ (0 < length chunks)%nat
    ∧ concat chunks = readlines (line "m1" +:+ line "m2" +:+ line "m3")
    ∧ Forall (λ lines, readlines (join lines) = lines) chunks
    ∧ (∀ (i : nat) lines, chunks !! i = Some lines →
         contents w' !! chunk_name (splitext "b.txt") (q + Z.of_nat i)
         = Some (join the_preamble +:+ join lines))
    ∧ (∀ header header_text,
         preamble args = Some header → header ≠ EmptyString →
         contents demo_world !! header = Some header_text →
         the_preamble = readlines header_text
         ∧ join the_preamble = header_text)
    ∧ (preamble args = None →
       the_preamble = []
       ∧ ∀ (i : nat) lines, chunks !! i = Some lines →
           contents w' !! chunk_name (splitext "b.txt") (q + Z.of_nat i)
           = Some (join lines)).
Proof.
  intros args.
  apply (preamble_placement args demo_world "b.txt" 0
           (line "m1" +:+ line "m2" +:+ line "m3")).
  - reflexivity.
  - lia.
  - reflexivity.
  - apply demo_unprotected.
Defined.

(** C7. A header file that cannot be read.  The error is reported, and the
    run goes on as the run without a header file does: the two leave the
    same file system, and the same messages after the report. *)
Theorem preamble_failure_nonfatal (args : Args) (w : world) (header : string) :
  preamble args = Some header → header ≠ EmptyString →
  contents w !! header = None →
  let args' := {| files := files args; preamble := None; size := size args |} in
  contents (main args w) = contents (main args' w)
  ∧ protected (main args w) = protected (main args' w)
  ∧ ∃ evs, console (main args' w) = console w ++ evs
           ∧ console (main args w) = console w ++ PrintErrorHeader :: evs.
Proof.
  intros Hpre Hne Hheader args'.
  set (w_bare := World (contents w) (protected w) []).
  assert (main args w
          = prepend (console w ++ [PrintErrorHeader])
              (try_files [] (max_lines_of args) (files args) w_bare)) as ->.
  { rewrite <- try_files_prepend, main_unfold.
    unfold load_preamble, open_r. rewrite Hpre, decide_False, Hheader by done.
    simpl. unfold prepend. simpl. by rewrite app_nil_r. }
  assert (main args' w
          = prepend (console w)
              (try_files [] (max_lines_of args) (files args) w_bare)) as ->.
  { rewrite <- try_files_prepend, main_unfold. unfold prepend. simpl.
    rewrite app_nil_r. by destruct w. }
  simpl. split_and!; [done..|].
  eexists. split; [done|]. by rewrite <- app_assoc.
Qed.

Lemma preamble_failure_nonfatal_witness :
  let args := {| files := ["a.txt"; "b.txt"]; preamble := Some "nowhere";
                 size := Some 2 |} in
  let args' := {| files := files args; preamble := None; size := size args |} in
  contents (main args demo_world) = contents (main args' demo_world)
  ∧ protected (main args demo_world) = protected (main args' demo_world)
  ∧ ∃ evs, console (main args' demo_world) = console demo_world ++ evs
           ∧ console (main args demo_world)
             = console demo_world ++ PrintErrorHeader :: evs.
Proof.
  intros args.
  apply (preamble_failure_nonfatal args demo_world "nowhere").
  - reflexivity.
  - discriminate.
  - reflexivity.
Defined.

(** C8. An input file that cannot be processed.  When the input files before
    it have been processed and this one raises, because it cannot be opened
    or because an output file cannot be, the run ends with the report that
    names it: the world is the one the failing file has left, with the
    report added, whatever input files follow.  No file is removed or
    restored: every file other than the chunks of the failing input is as
    the earlier inputs have left it, and when the input cannot be opened
    nothing changes at all. *)
Theorem input_failure_fatal (args : Args) (w : world)
    (before : list string) (input_filename : string) (after : list string)
    (count : Z) (w1 w2 : world) :
  files args = before ++ input_filename :: after →
  let the_preamble := (load_preamble args w).1 in
  for_files the_preamble (max_lines_of args) before 0 (load_preamble args w).2
  = (Completed count, w1) →
  process_file the_preamble (max_lines_of args) input_filename count w1
  = (Raised, w2) →
  main args w
  = World (contents w2) (protected w2)
          (console w2 ++ [PrintErrorProcessing input_filename])
  ∧ (∀ p, (∀ k, p ≠ chunk_name (splitext input_filename) k) →
          contents w2 !! p = contents w1 !! p)
  ∧ (contents w1 !! input_filename = None → w2 = w1).
Proof.
  intros Hfiles P Hbefore Hraise. split_and!.
  - rewrite main_unfold, Hfiles. unfold try_files. fold P.
    rewrite (for_files_app P _ before _ 0 _ count w1 Hbefore).
    by rewrite (for_files_raised P _ _ _ _ _ w2 Hraise).
  - intros p Hp.
    pose proof (confined_process_file P (max_lines_of args) input_filename
                  count w1) as [_ Hconf].
    rewrite Hraise in Hconf. by apply Hconf.
  - intros Hmissing.
    rewrite (process_file_missing P _ _ _ _ Hmissing) in Hraise. congruence.
Qed.

Lemma input_failure_fatal_witness :
  let args := {| files := ["b.txt"; "a.txt"; "d/notes.log"]; preamble := None;
                 size := Some 3 |} in
  let w1 := (for_files [] 3 ["b.txt"] 0 locked_world).2 in
  let w2 := (process_file [] 3 "a.txt" 4 w1).2 in
  main args locked_world
  = World (contents w2) (protected w2)
          (console w2 ++ [PrintErrorProcessing "a.txt"])
  ∧ (∀ p, (∀ k, p ≠ chunk_name (splitext "a.txt") k) →
          contents w2 !! p = contents w1 !! p)
  ∧ (contents w1 !! "a.txt" = None → w2 = w1).
Proof.
  intros args w1 w2.
  apply (input_failure_fatal args locked_world ["b.txt"] "a.txt"
           ["d/notes.log"] 4 w1 w2).
  - reflexivity.
  - by vm_compute.
  - by vm_compute.
Defined.

(** An output file that cannot be opened: the rotation of "a.txt" raises, the
    report names "a.txt", the chunk written before stays, and "b.txt" is not
    processed. *)
Example locked_output_run :
  let w' := main {| files := ["a.txt"; "b.txt"]; preamble := None;
                    size := Some 2 |} locked_world in
  console w'
  = [PrintGenerating "a-0.txt"; PrintPreamble []; PrintLine (line "l1");
     PrintLine (line "l2"); PrintSeparator 2; PrintGenerating "a-1.txt";
     PrintErrorProcessing "a.txt"]
  ∧ contents w' !! "a-0.txt" = Some (line "l1" +:+ line "l2")
  ∧ contents w' !! "a-1.txt" = None
  ∧ contents w' !! "b-1.txt" = None.
Proof. by vm_compute. Qed.

(** C10. Empty input.  A sole input file without any line: the run announces
    one output file, of index 0, and the file system differs from the
    initial one in this file only, which holds the preamble and nothing
    else. *)
Theorem empty_input (args : Args) (w : world) (path : string) :
  files args = [path] →
  contents w !! path = Some EmptyString →
  chunk_name (splitext path) 0 ∉ protected w →
  generated (console (main args w))
  = generated (console w) ++ [chunk_name (splitext path) 0]
  ∧ contents (main args w)
    = <[chunk_name (splitext path) 0 := join (load_preamble args w).1]>
        (contents w).
Proof.
  intros Hfiles Htext Hprot.
  destruct (load_preamble_world args w) as (evs0 & Hw0 & Hgen0 & _).
  rewrite main_unfold, Hfiles, Hw0.
  set (P := (load_preamble args w).1).
  set (w0 := World _ _ _).
  assert (process_file P (max_lines_of args) path 0 w0
          = (Ok (0 + 1),
             World (<[chunk_name (splitext path) 0 := join P]> (contents w))
                   (protected w)
                   ((console w ++ evs0)
                    ++ [PrintGenerating (chunk_name (splitext path) 0);
                        PrintPreamble P]))) as Hrun.
  { unfold process_file.
    erewrite bind_Ok; [|unfold open_r; simpl; rewrite Htext; reflexivity].
    unfold output_name. rewrite Z.quot_0_l.
    2:{ unfold max_lines_of. destruct (size args); [case_decide|]; done. }
    erewrite bind_Ok; [|by apply start_output_Ok]. reflexivity. }
  unfold try_files. simpl. rewrite Hrun. simpl. split; [|done].
  rewrite !generated_app, Hgen0. simpl. by rewrite app_nil_r.
Qed.

Lemma empty_input_witness :
  let args := {| files := ["empty.txt"]; preamble := Some "header";
                 size := None |} in
  generated (console (main args demo_world))
  = generated (console demo_world) ++ [chunk_name (splitext "empty.txt") 0]
  ∧ contents (main args demo_world)
    = <[chunk_name (splitext "empty.txt") 0
        := join (load_preamble args demo_world).1]> (contents demo_world).
Proof.
  intros args. apply (empty_input args demo_world "empty.txt").
  - reflexivity.
  - reflexivity.
  - apply not_elem_of_empty.
Defined.

End SplitFileSpec.

(* ===================================================================== *)
(** ** Facts about ics_parser.py *)
(* ===================================================================== *)

Module IcsParserFacts.
Import IcsParser.

Lemma tuple_lt_asym xs ys : tuple_lt xs ys = true → tuple_lt ys xs = false.
Proof.
  revert ys. induction xs as [|x xs IH]; intros [|y ys] H; simpl in *; try done.
  apply orb_true_iff in H as [H|H].
  - apply Z.ltb_lt in H.
    rewrite (proj2 (Z.ltb_ge y x)), (proj2 (Z.eqb_neq y x)) by lia. done.
  - apply andb_true_iff in H as [Hxy H]. apply Z.eqb_eq in Hxy as ->.
    by rewrite Z.ltb_irrefl, Z.eqb_refl, (IH ys).
Qed.

Lemma tuple_le_trans xs ys zs :
  length xs = length ys → length ys = length zs →
  tuple_lt ys xs = false → tuple_lt zs ys = false → tuple_lt zs xs = false.
Proof.
  revert ys zs. induction xs as [|x xs IH]; intros [|y ys] [|z zs] Hxy Hyz H1 H2;
    simpl in *; try done.
  apply orb_false_iff in H1 as [H1 H1'], H2 as [H2 H2'].
  apply Z.ltb_ge in H1, H2.
  apply orb_false_iff. split; [apply Z.ltb_ge; lia|].
  destruct (z =? x) eqn:Hzx; [|done]. apply Z.eqb_eq in Hzx as ->.
  assert (y = x) as -> by lia.
  rewrite Z.eqb_refl in H1', H2'. simpl in *.
  apply (IH ys zs); congruence.
Qed.

Lemma fields_length dt : length (fields dt) = 7%nat.
Proof. done. Qed.

Global Instance key_le_trans : Transitive key_le.
Proof.
  intros a b c Hab Hbc. unfold key_le in *.
  apply (tuple_le_trans _ (fields (key b))); by rewrite ?fields_length.
Qed.

Lemma datetime_lt_naive a b :
  tz a = None → tz b = None →
  datetime_lt a b = Ok (tuple_lt (fields a) (fields b)).
Proof. intros Ha Hb. unfold datetime_lt. by rewrite Ha, Hb. Qed.

Lemma datetime_lt_aware a b :
  is_Some (utcoffset a) → is_Some (utcoffset b) →
  ∃ r, datetime_lt a b = Ok r.
Proof.
  intros [oa Ha] [ob Hb]. unfold datetime_lt. rewrite Ha, Hb.
  repeat case_match; eauto.
Qed.

Lemma datetime_lt_naive_aware a b :
  tz a = None → is_Some (utcoffset b) → datetime_lt a b = TypeError.
Proof.
  intros Ha [ob Hb]. unfold datetime_lt, utcoffset in *. rewrite Ha.
  destruct (tz b); [by rewrite Hb|done].
Qed.

Lemma datetime_lt_aware_naive a b :
  is_Some (utcoffset a) → tz b = None → datetime_lt a b = TypeError.
Proof.
  intros [oa Ha] Hb. unfold datetime_lt, utcoffset in *. rewrite Hb.
  destruct (tz a); [by rewrite Ha|done].
Qed.

Section Sorting.
Variable strip squeeze : string → string.

Lemma insert_naive e sorted :
  naive_key e → Forall naive_key sorted →
  Sorted key_le sorted →
  ∃ sorted', insert e sorted = Ok sorted'
             ∧ sorted' ≡ₚ e :: sorted
             ∧ Sorted key_le sorted'
             ∧ (∀ e0, HdRel key_le e0 sorted → key_le e0 e →
                      HdRel key_le e0 sorted').
Proof.
  intros He. induction sorted as [|e' rest IH]; intros Hnaive Hsorted.
  - exists [e]. repeat split; auto.
  - apply Forall_cons in Hnaive as [He' Hnaive].
    apply Sorted_inv in Hsorted as [Hsorted Hhd]. simpl.
    rewrite datetime_lt_naive by done.
    destruct (tuple_lt (fields (key e)) (fields (key e'))) eqn:Hlt.
    + exists (e :: e' :: rest). split_and!; [done|done| |].
      * constructor; [by constructor|]. constructor.
        unfold key_le. by apply tuple_lt_asym.
      * intros e0 _ H0. by constructor.
    + destruct (IH Hnaive Hsorted) as (rest' & -> & Hperm & Hsorted' & Hhd').
      exists (e' :: rest'). split_and!; [done| | |].
      * rewrite Hperm. apply perm_swap.
      * constructor; [done|]. by apply Hhd'.
      * intros e0 H0 _. apply HdRel_inv in H0. by constructor.
Qed.

Lemma sort_naive events :
  Forall naive_key events →
  ∃ sorted, sort events = Ok sorted
            ∧ sorted ≡ₚ events
            ∧ StronglySorted key_le sorted.
Proof.
  intros Hnaive.
  cut (∀ acc, Forall naive_key acc → Sorted key_le acc →
         ∃ sorted,
           foldl (λ acc e, match acc with
                           | Ok sorted => insert e sorted
                           | TypeError => TypeError
                           end) (Ok acc) events = Ok sorted
           ∧ sorted ≡ₚ acc ++ events ∧ Sorted key_le sorted).
  { intros H. destruct (H [] ltac:(constructor) ltac:(constructor))
      as (sorted & Hrun & Hperm & Hsorted).
    exists sorted. split_and!; [done|done|].
    by apply Sorted_StronglySorted; [apply key_le_trans|]. }
  induction events as [|e events IH]; intros acc Hacc Hsorted; simpl.
  - exists acc. by rewrite app_nil_r.
  - apply Forall_cons in Hnaive as [He Hnaive].
    destruct (insert_naive e acc He Hacc Hsorted)
      as (acc' & -> & Hperm & Hsorted' & _).
    destruct (IH Hnaive acc') as (sorted & Hrun & Hperm' & Hs); [|done|].
    { by rewrite Hperm; constructor. }
    exists sorted. split_and!; [done| |done].
    rewrite Hperm', Hperm. by rewrite <- Permutation_middle.
Qed.

(** Where no start time carries an offset, the report is laid out and lists
    the events by nondecreasing key: an all-day event at the midnight of its
    date, an event without start at [datetime.min]. *)
Lemma report_sorted ics_file_path walk :
  Forall naive_key (collect strip squeeze walk) →
  ∃ events,
    parse_ics_to_human_readable strip squeeze ics_file_path walk
    = Ok ([Header ics_file_path; Blank]
          ++ concat (render_event <$> events) ++ [Footer])
    ∧ events ≡ₚ collect strip squeeze walk
    ∧ StronglySorted key_le events.
Proof.
  intros Hnaive. destruct (sort_naive _ Hnaive) as (events & Hrun & Hperm & Hs).
  exists events. unfold parse_ics_to_human_readable. by rewrite Hrun.
Qed.

Lemma insert_comparable e sorted :
  Forall (λ e', ∃ r, datetime_lt (key e) (key e') = Ok r) sorted →
  ∃ sorted', insert e sorted = Ok sorted' ∧ sorted' ≡ₚ e :: sorted.
Proof.
  induction sorted as [|e' rest IH]; intros H; simpl; [eauto|].
  apply Forall_cons in H as [[r ->] H]. destruct r; [eauto|].
  destruct (IH H) as (rest' & -> & Hperm). eexists. split; [done|].
  rewrite Hperm. apply perm_swap.
Qed.

Lemma sort_from_TypeError events :
  foldl (λ acc e, match acc with
                  | Ok sorted => insert e sorted
                  | TypeError => TypeError
                  end) TypeError events = TypeError.
Proof. by induction events. Qed.

(** In a calendar where every key is naive or has an offset, one key of each
    kind is enough for the sort to raise. *)
Lemma sort_mixed events :
  Forall (λ e, naive_key e ∨ aware_key e) events →
  Exists naive_key events → Exists aware_key events →
  sort events = TypeError.
Proof.
  intros Hkinds Hn Ha. unfold sort.
  cut (∀ acc, (Forall naive_key acc ∨ Forall aware_key acc) →
         Exists naive_key (acc ++ events) → Exists aware_key (acc ++ events) →
         foldl (λ acc e, match acc with
                         | Ok sorted => insert e sorted
                         | TypeError => TypeError
                         end) (Ok acc) events = TypeError).
  { intros H. apply (H []); [by left|done..]. }
  clear Hn Ha.
  assert (∀ e, naive_key e → aware_key e → False) as Hexcl.
  { unfold naive_key, aware_key, utcoffset. intros e -> [? ?]. done. }
  induction events as [|e events IH]; intros acc Hacc Hn Ha.
  - rewrite app_nil_r in Hn, Ha.
    apply Exists_exists in Hn as (x & Hx & Hxn), Ha as (y & Hy & Hya).
    destruct Hacc as [Hacc|Hacc]; rewrite Forall_forall in Hacc.
    + destruct (Hexcl y); auto.
    + destruct (Hexcl x); auto.
  - apply Forall_cons in Hkinds as [He Hkinds]. simpl.
    assert (∀ acc', acc' ≡ₚ e :: acc →
              Exists naive_key (acc' ++ events)
              ∧ Exists aware_key (acc' ++ events)) as Hmove.
    { intros acc' Hperm. rewrite Hperm. simpl.
      split; [by rewrite Permutation_middle|by rewrite Permutation_middle]. }
    destruct acc as [|e' acc].
    { simpl. destruct (Hmove [e] ltac:(done)) as [Hn' Ha'].
      apply IH; [done| |done..].
      destruct He; [left|right]; by constructor. }
    destruct Hacc as [Hacc|Hacc], He as [He|He].
    + destruct (insert_comparable e (e' :: acc)) as (acc' & -> & Hperm).
      { eapply Forall_impl; [exact Hacc|]. intros x Hx. simpl.
        rewrite datetime_lt_naive by done. eauto. }
      destruct (Hmove acc' Hperm). apply IH; [done| |done..].
      left. rewrite Hperm. by constructor.
    + apply Forall_cons in Hacc as [He' _]. simpl.
      rewrite datetime_lt_aware_naive by done. apply sort_from_TypeError.
    + apply Forall_cons in Hacc as [He' _]. simpl.
      rewrite datetime_lt_naive_aware by done. apply sort_from_TypeError.
    + destruct (insert_comparable e (e' :: acc)) as (acc' & -> & Hperm).
      { eapply Forall_impl; [exact Hacc|]. intros x Hx. simpl.
        by apply datetime_lt_aware. }
      destruct (Hmove acc' Hperm). apply IH; [done| |done..].
      right. rewrite Hperm. by constructor.
Qed.

Lemma report_mixed ics_file_path walk :
  Forall (λ e, naive_key e ∨ aware_key e) (collect strip squeeze walk) →
  Exists naive_key (collect strip squeeze walk) →
  Exists aware_key (collect strip squeeze walk) →
  parse_ics_to_human_readable strip squeeze ics_file_path walk = TypeError.
Proof.
  intros H1 H2 H3. unfold parse_ics_to_human_readable.
  by rewrite sort_mixed.
Qed.

End Sorting.
End IcsParserFacts.

(* ===================================================================== *)
(** ** The statements of the specification: ics_parser.py *)
(* ===================================================================== *)

Module IcsParserSpec.
Import IcsParser.

(** C9 at the failing input.  A calendar with an event that starts at a time
    given in UTC and an all-day event: the key of the first has an offset,
    the key of the second is a naive midnight, the sort compares the two
    and the [TypeError] leaves [parse_ics_to_human_readable] before any line
    of the report exists. *)
Theorem mixed_start_times_raise (strip squeeze : string → string)
    (ics_file_path : string) :
  parse_ics_to_human_readable strip squeeze ics_file_path
    [timed_event; all_day_event] = TypeError.
Proof. reflexivity. Qed.

(** The same happens to an event without start next to an event with a start
    time in UTC: its key is [datetime.min], which is naive. *)
Example missing_start_raises (strip squeeze : string → string)
    (ics_file_path : string) :
  parse_ics_to_human_readable strip squeeze ics_file_path
    [timed_event; Component "VEVENT" (Some "Undated") None None None None None]
  = TypeError.
Proof. reflexivity. Qed.

(** Without any offset the report is laid out, in the order of the keys. *)
Example naive_calendar_report :
  parse_ics_to_human_readable id id "cal.ics" [all_day_event; floating_event]
  = Ok [Header "cal.ics"; Blank;
        Title "Lunch";
        Start (LocalTime (DateTime (Date 2024 1 1) 12 0 0 0 None));
        Location "Canteen"; Rule;
        Title "Holiday"; Start (AllDay (Date 2024 1 2));
        Finish (AllDay (Date 2024 1 3)); Rule;
        Footer].
Proof. reflexivity. Qed.

End IcsParserSpec.

(* ===================================================================== *)
(** ** Further properties: SplitFile.py *)
(* ===================================================================== *)

Module SplitFileExtra.
Import Text TextFacts SplitFile SplitFileMore SplitFileFacts SplitFileRuns.

(** *** Helpers *)

Lemma main_sole_world args w path text :
  files args = [path] →
  contents w !! path = Some text →
  (∀ k, chunk_name (splitext path) k ∉ protected w) →
  ∃ evs,
    main args w
    = World (write_all (load_preamble args w).1 (max_lines_of args)
               (splitext path)
               (layout (max_lines_of args) 0 [] 0 (readlines text))
               (contents w))
            (protected w) (console w ++ evs).
Proof.
  intros Hfiles Htext Hprot.
  destruct (load_preamble_world args w) as (evs0 & Hw0 & _).
  destruct (process_file_layout (load_preamble args w).1 (max_lines_of args)
              path 0 (load_preamble args w).2 text) as (evs & Hrun & _).
  { by rewrite Hw0. }
  { by rewrite Hw0. }
  rewrite (main_sole_input args w path _ _ Hfiles Hrun), Hw0. simpl.
  exists (evs0 ++ evs). by rewrite app_assoc.
Qed.

(** X1. The number of output files.  A sole input of [n] lines, cut with a
    positive [max_lines]: the run announces [n div max_lines + 1] output
    files, of indices 0 to [n div max_lines], and prints one separator for
    every file but the first. *)
Theorem output_file_count (args : Args) (w : world) (path text : string) :
  files args = [path] → 0 < max_lines_of args →
  contents w !! path = Some text →
  (∀ k, chunk_name (splitext path) k ∉ protected w) →
  let n := Z.of_nat (length (readlines text)) in
  generated (console (main args w))
  = generated (console w)
    ++ (chunk_name (splitext path) <$> seqZ 0 (n `div` max_lines_of args + 1))
  ∧ Z.of_nat (length (generated (console (main args w))))
    = Z.of_nat (length (generated (console w))) + n `div` max_lines_of args + 1.
Proof.
  intros Hfiles Hm Htext Hprot n.
  destruct (main_sole_chunks args w path text Hfiles Hm Htext Hprot)
    as (Hgen & _).
  pose proof (layout_length (max_lines_of args) 0 [] 0 (readlines text) Hm)
    as Hlen.
  rewrite Z.add_0_l, Zdiv_0_l in Hlen.
  rewrite length_fmap in Hgen. rewrite Hlen, Z.sub_0_r in Hgen.
  split; [exact Hgen|].
  assert (0 ≤ n `div` max_lines_of args) by (apply Z.div_pos; lia).
  rewrite Hgen, length_app, length_fmap, length_seqZ. subst n. lia.
Qed.


(** The first chunk of an input file runs up to the next multiple of
    [max_lines] of the counter. *)
Lemma layout_first_chunk max_lines opened cur c fp :
  0 < max_lines →
  let room := Z.to_nat (max_lines - c `mod` max_lines) in
  layout max_lines opened cur c fp
  = if decide (length fp < room)%nat then [(opened, cur ++ fp)]
    else (opened, cur ++ take room fp)
         :: layout max_lines (c + Z.of_nat room) [] (c + Z.of_nat room)
                   (drop room fp).
Proof.
  intros Hm. revert cur c. induction fp as [|line fp IH]; intros cur c room.
  - pose proof (Z.mod_pos_bound c max_lines Hm).
    rewrite decide_True by (subst room; simpl; lia). simpl. by rewrite app_nil_r.
  - pose proof (Z.mod_pos_bound c max_lines Hm) as Hb.
    cbn [layout]. destruct ((c + 1) `mod` max_lines =? 0) eqn:Hmod.
    + apply Z.eqb_eq in Hmod.
      pose proof (mod_succ_boundary max_lines c Hm Hmod) as Hc.
      assert (room = 1%nat) as -> by (subst room; lia).
      rewrite decide_False by (simpl; lia). simpl.
      by rewrite Z.add_1_r, <- Z.add_1_r.
    + apply Z.eqb_neq in Hmod.
      pose proof (mod_succ_inside max_lines c Hm Hmod) as Hc.
      specialize (IH (cur ++ [line]) (c + 1)). cbv zeta in IH. rewrite IH.
      assert (room = S (Z.to_nat (max_lines - (c + 1) `mod` max_lines)))
        as -> by (subst room; lia).
      set (room' := Z.to_nat _).
      destruct (decide (length fp < room')%nat).
      * rewrite decide_True by (simpl; lia). by rewrite <- app_assoc.
      * rewrite decide_False by (simpl; lia). simpl.
        rewrite <- app_assoc. simpl.
        by replace (c + 1 + Z.of_nat room') with (c + Z.of_nat (S room')) by lia.
Qed.

(** X2. Chunk sizes from any value of the counter.  An input file opened
    with the counter at [c]: its first output file has room for
    [max_lines - c mod max_lines] lines.  An input with fewer lines goes into
    this file whole.  Otherwise the first file holds exactly that many lines,
    every file between the first and the last holds [max_lines] lines, and
    the last one holds [(c + n) mod max_lines] lines. *)
Theorem chunk_sizes_from (P : list string) (max_lines : Z) (path : string)
    (c : Z) (w : world) (text : string) :
  0 < max_lines → 0 ≤ c →
  contents w !! path = Some text →
  (∀ k, chunk_name (splitext path) k ∉ protected w) →
  let n := Z.of_nat (length (readlines text)) in
  let room := max_lines - c `mod` max_lines in
  ∃ c' w' (chunks : list (list string)),
    process_file P max_lines path c w = (Ok c', w')
    ∧ (∀ (i : nat) lines, chunks !! i = Some lines →
         contents w' !! chunk_name (splitext path) (c `quot` max_lines + Z.of_nat i)
         = Some (join P +:+ join lines))
    ∧ concat chunks = readlines text
    ∧ 1 ≤ room ≤ max_lines
    ∧ (n < room → chunks = [readlines text])
    ∧ (room ≤ n →
       ∃ first middle final,
         chunks = first :: middle ++ [final]
         ∧ Z.of_nat (length first) = room
         ∧ Forall (λ lines : list string, Z.of_nat (length lines) = max_lines)
                  middle
         ∧ Z.of_nat (length final) = (c + n) `mod` max_lines).
Proof.
  intros Hm Hc Htext Hprot n room.
  destruct (process_file_chunks P max_lines path c w text Hm Hc Htext Hprot)
    as (w' & evs & Hrun & _ & _ & _ & Hfiles & _).
  pose proof (Z.mod_pos_bound c max_lines Hm) as Hb.
  eexists _, w', _. split; [exact Hrun|]. split; [exact Hfiles|].
  split; [by rewrite layout_lines|]. split; [subst room; lia|].
  pose proof (layout_first_chunk max_lines c [] c (readlines text) Hm) as Hl.
  cbv zeta in Hl. set (r := Z.to_nat _) in Hl.
  assert (Z.of_nat r = room) as Hr by (subst r room; lia).
  split.
  - intros Hlt. rewrite Hl, decide_True by (subst n; lia). done.
  - intros Hge. rewrite Hl, decide_False by (subst n; lia).
    destruct (aligned_chunks max_lines (c + Z.of_nat r)
                (drop r (readlines text)) Hm)
      as (middle & final & Hsplit & Hmiddle & Hfinal & _).
    { rewrite Hr. subst room.
      replace (c + (max_lines - c `mod` max_lines))
        with (c - c `mod` max_lines + 1 * max_lines) by lia.
      rewrite Z.mod_add by lia. rewrite Zminus_mod_idemp_r, Z.sub_diag. done. }
    exists (take r (readlines text)), middle, final.
    rewrite fmap_cons, Hsplit. simpl. split_and!; [done| |done|].
    + rewrite length_take. subst n. lia.
    + rewrite Hfinal, length_drop.
      replace (c + n) with (Z.of_nat (length (readlines text) - r)
                            + (c - c `mod` max_lines + 1 * max_lines))
        by (subst n room; lia).
      rewrite Z.add_mod, Z.mod_add by lia.
      rewrite Zminus_mod_idemp_r, Z.sub_diag, Zmod_0_l, Z.add_0_r.
      by rewrite Z.mod_mod by lia.
Qed.


(** A negative [max_lines] rotates where its absolute value does. *)
Lemma mod_opp_zero x m : m ≠ 0 → (x `mod` (- m) =? 0) = (x `mod` m =? 0).
Proof.
  intros Hm. apply eq_iff_eq_true. rewrite !Z.eqb_eq.
  rewrite !Z.mod_divide by lia. apply Z.divide_opp_l.
Qed.

Lemma layout_opp m opened cur c fp :
  m ≠ 0 → layout (- m) opened cur c fp = layout m opened cur c fp.
Proof.
  intros Hm. revert opened cur c.
  induction fp as [|line fp IH]; intros opened cur c; simpl; [done|].
  rewrite mod_opp_zero by done. by rewrite !IH.
Qed.

Lemma chunk_paths_opp m parts opened cur c fp :
  0 < m → 0 ≤ opened ≤ c → opened `div` m = c `div` m →
  chunk_path (- m) parts <$> layout m opened cur c fp
  = (λ k, chunk_name parts (- k))
    <$> seqZ (c `div` m) (Z.of_nat (length (layout m opened cur c fp))).
Proof.
  intros Hm Hc Hq. rewrite <- layout_indices by done.
  rewrite <- list_fmap_compose. apply Forall_fmap_ext_1.
  eapply Forall_impl; [apply (layout_opened_ge m opened cur c fp); lia|].
  intros [k ch] Hle. unfold chunk_path, output_name. simpl in *.
  by rewrite Z.quot_opp_r, Z.quot_div_nonneg by lia.
Qed.

Global Instance chunk_name_opp_inj parts :
  Inj (=) (=) (λ k, chunk_name parts (- k)).
Proof. intros i j H. apply (inj (chunk_name parts)) in H. lia. Qed.

(** X3. A negative size.  [main] takes a negative [max_lines] as it comes: the
    lines are cut into chunks of [- max_lines] lines, and the output files
    carry the indices [-q], [-(q + 1)], ... where [q] is the quotient of the
    counter by [- max_lines]: after "-0" come "--1", "--2".  The chunks put
    end to end are the lines of the input. *)
Theorem negative_size (P : list string) (max_lines : Z) (path : string)
    (c : Z) (w : world) (text : string) :
  max_lines < 0 → 0 ≤ c →
  contents w !! path = Some text →
  (∀ k, chunk_name (splitext path) k ∉ protected w) →
  let m := - max_lines in
  let q := c `div` m in
  ∃ c' w' evs (chunks : list (list string)),
    process_file P max_lines path c w = (Ok c', w')
    ∧ console w' = console w ++ evs
    ∧ generated evs
      = (λ k, chunk_name (splitext path) (- k))
        <$> seqZ q (Z.of_nat (length chunks))
    ∧ (∀ (i : nat) lines, chunks !! i = Some lines →
         contents w' !! chunk_name (splitext path) (- (q + Z.of_nat i))
         = Some (join P +:+ join lines))
    ∧ concat chunks = readlines text
    ∧ (c `mod` m = 0 →
       ∃ front final,
         chunks = front ++ [final]
         ∧ Forall (λ lines : list string, Z.of_nat (length lines) = m) front
         ∧ Z.of_nat (length final)
           = Z.of_nat (length (readlines text)) `mod` m).
Proof.
  intros Hneg Hc Htext Hprot m q. subst q.
  assert (0 < m) as Hm by (subst m; lia).
  assert (max_lines = - m) as Hmax by (subst m; lia).
  destruct (process_file_layout P max_lines path c w text Htext Hprot)
    as (evs & Hrun & Hgen & _).
  rewrite Hmax in Hrun, Hgen. rewrite layout_opp in Hrun, Hgen by lia.
  pose proof (chunk_paths_opp m (splitext path) c [] c (readlines text)
                Hm ltac:(lia) eq_refl) as Hpaths.
  rewrite Hmax.
  eexists _, _, evs, (snd <$> layout m c [] c (readlines text)).
  split; [exact Hrun|]. simpl. split_and!.
  - done.
  - by rewrite Hgen, Hpaths, length_fmap.
  - intros i lines Hi.
    apply list_lookup_fmap_Some in Hi as ([k ch] & -> & Hi). simpl.
    assert (NoDup (chunk_path (- m) (splitext path)
                     <$> layout m c [] c (readlines text))) as Hnd.
    { rewrite Hpaths. apply (NoDup_fmap_2 _), NoDup_seqZ. }
    assert ((k, ch) ∈ layout m c [] c (readlines text)) as Hin.
    { by eapply list_elem_of_lookup_2. }
    pose proof (write_all_lookup P (- m) _ _ (contents w) _ Hnd Hin) as Hw.
    assert ((chunk_path (- m) (splitext path)
               <$> layout m c [] c (readlines text)) !! i
            = Some (chunk_path (- m) (splitext path) (k, ch))) as Hp.
    { by rewrite list_lookup_fmap, Hi. }
    rewrite Hpaths, list_lookup_fmap in Hp.
    destruct (seqZ _ _ !! i) as [j|] eqn:Hj; [|done].
    apply lookup_seqZ in Hj as [-> _]. simpl in Hp.
    injection Hp as ->. exact Hw.
  - by rewrite layout_lines.
  - intros Hal.
    destruct (aligned_chunks m c (readlines text) Hm Hal)
      as (front & final & Hsplit & Hfront & Hfinal & _).
    by exists front, final.
Qed.


(** *** What a run leaves alone *)

Lemma for_files_confined P max_lines inputs c w p :
  (∀ f k, f ∈ inputs → p ≠ chunk_name (splitext f) k) →
  contents (for_files P max_lines inputs c w).2 !! p = contents w !! p.
Proof.
  revert c w. induction inputs as [|f inputs IH]; intros c w Hp; [done|].
  simpl. pose proof (confined_process_file P max_lines f c w) as [_ Hconf].
  destruct (process_file P max_lines f c w) as [[c'|] w']; simpl in *.
  - rewrite IH by (intros; apply Hp; by right).
    apply Hconf. intros k. apply Hp. by left.
  - apply Hconf. intros k. apply Hp. by left.
Qed.

Lemma for_files_protected P max_lines inputs c w :
  protected (for_files P max_lines inputs c w).2 = protected w.
Proof.
  revert c w. induction inputs as [|f inputs IH]; intros c w; [done|].
  simpl. pose proof (confined_process_file P max_lines f c w) as [Hp _].
  destruct (process_file P max_lines f c w) as [[c'|] w']; simpl in *.
  - by rewrite IH.
  - done.
Qed.

Lemma try_files_contents P max_lines inputs w :
  contents (try_files P max_lines inputs w)
  = contents (for_files P max_lines inputs 0 w).2
  ∧ protected (try_files P max_lines inputs w)
    = protected (for_files P max_lines inputs 0 w).2.
Proof.
  unfold try_files. by destruct (for_files P max_lines inputs 0 w) as [[?|?] ?].
Qed.

(** X4. A run writes to chunks only.  Whatever the run meets, a path that is
    not a chunk name of one of the input files holds after the run what it
    held before. *)
Theorem main_writes_only_chunks (args : Args) (w : world) (p : string) :
  (∀ f k, f ∈ files args → p ≠ chunk_name (splitext f) k) →
  contents (main args w) !! p = contents w !! p.
Proof.
  intros Hp. rewrite main_unfold.
  destruct (try_files_contents (load_preamble args w).1 (max_lines_of args)
              (files args) (load_preamble args w).2) as [-> _].
  rewrite for_files_confined by done.
  destruct (load_preamble_world args w) as (evs & -> & _). done.
Qed.

(** X5. The file being read is never written.  Processing an input file, to
    the end or up to an exception, leaves the text at the path of this file
    as it was: no chunk can carry the name of its input. *)
Theorem input_never_modified (P : list string) (max_lines : Z) (path : string)
    (c : Z) (w : world) :
  contents (process_file P max_lines path c w).2 !! path = contents w !! path.
Proof.
  pose proof (confined_process_file P max_lines path c w) as [_ Hconf].
  apply Hconf. intros k H. by apply (chunk_name_neq_input path k).
Qed.

(** *** What a run never removes *)

Lemma keeps_ret {A} (a : A) : keeps_files (ret a).
Proof. by intros w p. Qed.

Lemma keeps_bind {A B} (m : M A) (k : A → M B) :
  keeps_files m → (∀ a, keeps_files (k a)) → keeps_files (bind m k).
Proof.
  intros Hm Hk w p H. unfold bind. specialize (Hm w p H).
  destruct (m w) as [[a|] w']; simpl in *; [by apply Hk|done].
Qed.

Lemma keeps_print e : keeps_files (print e).
Proof. by intros w p. Qed.

Lemma keeps_open_r path : keeps_files (open_r path).
Proof. intros w p H. unfold open_r. by case_match. Qed.

Lemma keeps_open_w path : keeps_files (open_w path).
Proof.
  intros w p H. unfold open_w. case_decide; simpl; [done|].
  rewrite lookup_insert. by case_decide.
Qed.

Lemma keeps_write path s : keeps_files (write path s).
Proof.
  intros w p [text H]. unfold write. simpl.
  destruct (decide (path = p)) as [->|Hne].
  - rewrite lookup_alter_eq, H. by eexists.
  - rewrite lookup_alter_ne, H by done. by eexists.
Qed.

Lemma keeps_writelines path lines : keeps_files (writelines path lines).
Proof.
  induction lines as [|line lines IH]; simpl.
  - apply keeps_ret.
  - apply keeps_bind; [apply keeps_write|done].
Qed.

Lemma keeps_start_output P name : keeps_files (start_output P name).
Proof.
  unfold start_output.
  repeat (apply keeps_bind; [|intros _]);
    auto using keeps_print, keeps_open_w, keeps_writelines.
Qed.

Lemma keeps_read_loop P max_lines parts fp outfile c :
  keeps_files (read_loop P max_lines parts fp outfile c).
Proof.
  revert outfile c. induction fp as [|line fp IH]; intros outfile c; simpl.
  - apply keeps_bind; [apply keeps_ret|intros _; apply keeps_ret].
  - case_decide.
    + apply keeps_bind; [apply keeps_ret|intros _; apply keeps_ret].
    + apply keeps_bind; [apply keeps_print|intros _].
      apply keeps_bind; [apply keeps_write|intros _].
      case_match; [|apply IH].
      apply keeps_bind; [apply keeps_ret|intros _].
      apply keeps_bind; [apply keeps_print|intros _].
      apply keeps_bind; [apply keeps_start_output|intros _]. apply IH.
Qed.

Lemma keeps_process_file P max_lines path c :
  keeps_files (process_file P max_lines path c).
Proof.
  unfold process_file.
  apply keeps_bind; [apply keeps_open_r|intros fp].
  apply keeps_bind; [apply keeps_start_output|intros _].
  apply keeps_read_loop.
Qed.

Lemma for_files_keeps P max_lines inputs c w p :
  is_Some (contents w !! p) →
  is_Some (contents (for_files P max_lines inputs c w).2 !! p).
Proof.
  revert c w. induction inputs as [|f inputs IH]; intros c w H; [done|].
  simpl. pose proof (keeps_process_file P max_lines f c w p H) as H'.
  destruct (process_file P max_lines f c w) as [[c'|] w']; simpl in *.
  - by apply IH.
  - done.
Qed.

(** X6. A run removes nothing.  After a run, with or without an exception,
    every file that existed still exists, the paths that cannot be written are
    the same, and the console holds what it held, followed by the messages of
    the run. *)
Theorem main_removes_nothing (args : Args) (w : world) :
  (∀ p, is_Some (contents w !! p) → is_Some (contents (main args w) !! p))
  ∧ protected (main args w) = protected w
  ∧ ∃ evs, console (main args w) = console w ++ evs.
Proof.
  rewrite main_unfold.
  destruct (load_preamble_world args w) as (evs0 & Hw0 & _).
  set (P := (load_preamble args w).1). rewrite Hw0.
  set (w0 := World _ _ _).
  destruct (try_files_contents P (max_lines_of args) (files args) w0)
    as [Hc Hp].
  split_and!.
  - intros p H. rewrite Hc. by apply for_files_keeps.
  - by rewrite Hp, for_files_protected.
  - set (bare := World (contents w) (protected w) []).
    pose proof (try_files_prepend P (max_lines_of args) (files args)
                  (console w ++ evs0) bare) as Hpre.
    assert (prepend (console w ++ evs0) bare = w0) as Heq.
    { unfold prepend, w0, bare. simpl. by rewrite app_nil_r. }
    rewrite Heq in Hpre. rewrite Hpre. simpl.
    eexists. by rewrite <- app_assoc.
Qed.


(** *** Running twice *)

Lemma write_all_idem P max_lines parts chunks fs :
  NoDup (chunk_path max_lines parts <$> chunks) →
  write_all P max_lines parts chunks (write_all P max_lines parts chunks fs)
  = write_all P max_lines parts chunks fs.
Proof.
  intros Hnd. apply map_eq. intros p.
  destruct (decide (p ∈ chunk_path max_lines parts <$> chunks)) as [Hin|Hout].
  - apply list_elem_of_fmap in Hin as (chunk & -> & Hin).
    by rewrite !write_all_lookup.
  - by rewrite !write_all_lookup_other.
Qed.

Lemma load_preamble_same args w1 w :
  (∀ header, preamble args = Some header →
             contents w1 !! header = contents w !! header) →
  (load_preamble args w1).1 = (load_preamble args w).1.
Proof.
  intros H. unfold load_preamble, open_r.
  destruct (preamble args) as [header|]; [|done].
  case_decide; [done|]. rewrite (H header eq_refl).
  by destruct (contents w !! header).
Qed.

Lemma chunk_path_is_chunk_name max_lines parts
    (chunks : list (Z * list string)) p :
  (∀ k, p ≠ chunk_name parts k) → p ∉ chunk_path max_lines parts <$> chunks.
Proof.
  intros Hp Hin. apply list_elem_of_fmap in Hin as (chunk & -> & _).
  by apply (Hp (chunk.1 `quot` max_lines)).
Qed.

(** X7. Running the splitter again.  A second run over the same sole input,
    when the header file is not named like a chunk of it, leaves the files of
    the first run as they are: every output file is opened anew and receives
    the same text. *)
Theorem rerun_same_files (args : Args) (w : world) (path text : string) :
  files args = [path] → 0 < max_lines_of args →
  contents w !! path = Some text →
  (∀ k, chunk_name (splitext path) k ∉ protected w) →
  (∀ header k, preamble args = Some header →
               header ≠ chunk_name (splitext path) k) →
  contents (main args (main args w)) = contents (main args w).
Proof.
  intros Hfiles Hm Htext Hprot Hheader.
  destruct (main_sole_world args w path text Hfiles Htext Hprot) as (evs & Hw1).
  set (w1 := main args w) in *.
  set (L := layout (max_lines_of args) 0 [] 0 (readlines text)) in *.
  assert (contents w1 !! path = Some text) as Htext1.
  { rewrite Hw1. simpl. rewrite write_all_lookup_other; [done|].
    apply chunk_path_is_chunk_name. intros k H.
    by apply (chunk_name_neq_input path k). }
  assert ((load_preamble args w1).1 = (load_preamble args w).1) as HP.
  { apply load_preamble_same. intros header Hpre. rewrite Hw1. simpl.
    apply write_all_lookup_other, chunk_path_is_chunk_name.
    intros k. by apply Hheader. }
  destruct (main_sole_world args w1 path text Hfiles Htext1) as (evs' & Hw2).
  { by rewrite Hw1. }
  rewrite Hw2, HP. simpl. rewrite Hw1. simpl.
  apply write_all_idem.
  by apply chunk_paths_NoDup.
Qed.

(** *** An output file that cannot be opened *)

(** X8. The first output file cannot be opened.  The run of a sole input
    announces the file, raises before a line is read, and reports the error
    under the name of the input file; no file is created or changed. *)
Theorem first_output_protected (args : Args) (w : world) (path text : string) :
  files args = [path] →
  contents w !! path = Some text →
  chunk_name (splitext path) 0 ∈ protected w →
  contents (main args w) = contents w
  ∧ console (main args w)
    = console (load_preamble args w).2
      ++ [PrintGenerating (chunk_name (splitext path) 0);
          PrintErrorProcessing path].
Proof.
  intros Hfiles Htext Hprot.
  destruct (load_preamble_world args w) as (evs0 & Hw0 & _).
  rewrite main_unfold, Hfiles, Hw0.
  set (P := (load_preamble args w).1). set (w0 := World _ _ _).
  assert (process_file P (max_lines_of args) path 0 w0
          = (Raised, World (contents w) (protected w)
                           ((console w ++ evs0)
                            ++ [PrintGenerating (chunk_name (splitext path) 0)])))
    as Hrun.
  { unfold process_file.
    erewrite bind_Ok; [|unfold open_r; simpl; rewrite Htext; reflexivity].
    unfold output_name. rewrite Z.quot_0_l.
    2:{ unfold max_lines_of. destruct (size args); [case_decide|]; done. }
    erewrite bind_Raised; [done|]. by apply start_output_Raised. }
  unfold try_files. simpl. rewrite Hrun. simpl. split; [done|].
  by rewrite <- app_assoc.
Qed.

(** *** Several input files *)

(** X9. The counter runs on.  When every input file is there, none of them is
    named like a chunk of an input and the chunks can be written, the loop
    over the input files completes, each input is read as it was before the
    run, and the counter ends at its start value plus, for every input, the
    number of its lines and one. *)
Theorem all_inputs_processed (P : list string) (max_lines : Z)
    (inputs texts : list string) (c : Z) (w : world) :
  Forall2 (λ f text, contents w !! f = Some text) inputs texts →
  (∀ f g k, f ∈ inputs → g ∈ inputs → f ≠ chunk_name (splitext g) k) →
  (∀ f k, f ∈ inputs → chunk_name (splitext f) k ∉ protected w) →
  ∃ w', for_files P max_lines inputs c w = (Completed (c + reads texts), w')
        ∧ Forall2 (λ f text, contents w' !! f = Some text) inputs texts.
Proof.
  intros Hthere. revert c w Hthere.
  induction inputs as [|f inputs IH] in texts |- *; intros c w Hthere Hind Hprot.
  - apply Forall2_nil_inv_l in Hthere as ->. exists w. simpl.
    by rewrite Z.add_0_r.
  - apply Forall2_cons_inv_l in Hthere as (text & texts' & Htext & Hrest & ->).
    destruct (process_file_layout P max_lines f c w text Htext)
      as (evs & Hrun & _).
    { intros k. apply Hprot. by left. }
    pose proof (confined_process_file P max_lines f c w) as [Hp Hconf].
    rewrite Hrun in Hp, Hconf. simpl in Hp, Hconf.
    set (w1 := World _ _ _) in *.
    assert (∀ g, g ∈ inputs → contents w1 !! g = contents w !! g) as Hsame.
    { intros g Hg. apply Hconf. intros k. apply Hind; [by right|by left]. }
    destruct (IH texts' (c + Z.of_nat (length (readlines text)) + 1) w1)
      as (w' & Hloop & Hkept).
    { apply Forall2_same_length_lookup in Hrest as [Hlen Hrest].
      apply Forall2_same_length_lookup. split; [done|].
      intros i g t Hg Ht. rewrite Hsame by (by eapply list_elem_of_lookup_2).
      by eapply Hrest. }
    { intros g h k Hg Hh. apply Hind; by right. }
    { intros g k Hg. unfold w1. simpl. apply Hprot. by right. }
    exists w'. split.
    + simpl. rewrite Hrun, Hloop. do 2 f_equal. lia.
    + constructor; [|done].
      pose proof (for_files_confined P max_lines inputs
                    (c + Z.of_nat (length (readlines text)) + 1) w1 f) as Hf.
      rewrite Hloop in Hf. simpl in Hf. rewrite Hf.
      * rewrite Hconf; [done|]. intros k. apply Hind; by left.
      * intros g k Hg. apply Hind; [by left|by right].
Qed.


(** *** The console *)

Section Echo.

Variable strip : string → string.

Lemma echoed_app evs1 evs2 :
  echoed strip (evs1 ++ evs2) = echoed strip evs1 ++ echoed strip evs2.
Proof. apply omap_app. Qed.

Lemma read_loop_echo P max_lines parts fp :
  Forall (λ line, line ≠ EmptyString) fp →
  ∀ outfile c w,
    ∃ evs,
      console (read_loop P max_lines parts fp outfile c w).2 = console w ++ evs
      ∧ (∀ c', (read_loop P max_lines parts fp outfile c w).1 = Ok c' →
               echoed strip evs = echo strip <$> fp).
Proof.
  induction 1 as [|line fp Hline Hne IH]; intros outfile c w.
  - exists []. simpl. by rewrite app_nil_r.
  - cbn [read_loop]. rewrite decide_False by done.
    erewrite bind_Ok by reflexivity. erewrite bind_Ok by reflexivity.
    set (w1 := World _ _ _).
    destruct ((c + 1) `mod` max_lines =? 0).
    + erewrite bind_Ok by reflexivity. erewrite bind_Ok by reflexivity.
      set (w2 := World _ _ _).
      set (name := output_name parts (c + 1) max_lines).
      destruct (decide (name ∈ protected w2)) as [Hin|Hout].
      * erewrite bind_Raised; [|by apply start_output_Raised]. simpl.
        eexists. split; [by rewrite <- !app_assoc|]. done.
      * erewrite bind_Ok; [|by apply start_output_Ok].
        set (w3 := World _ _ _).
        destruct (IH name (c + 1) w3) as (evs & Hcons & Hecho).
        exists ([PrintLine line; PrintSeparator (c + 1); PrintGenerating name;
                 PrintPreamble P] ++ evs).
        split.
        -- rewrite Hcons. subst w3 w2 w1. simpl. by rewrite <- !app_assoc.
        -- intros c' Hok. rewrite echoed_app, (Hecho c' Hok). done.
    + destruct (IH outfile (c + 1) w1) as (evs & Hcons & Hecho).
      exists (PrintLine line :: evs). split.
      * rewrite Hcons. subst w1. simpl. by rewrite <- app_assoc.
      * intros c' Hok. simpl. by rewrite (Hecho c' Hok).
Qed.

Lemma process_file_echo P max_lines path c c' w w' text :
  contents w !! path = Some text →
  process_file P max_lines path c w = (Ok c', w') →
  ∃ evs, console w' = console w ++ evs
         ∧ echoed strip evs = echo strip <$> readlines text.
Proof.
  intros Htext Hrun. unfold process_file in Hrun.
  erewrite bind_Ok in Hrun; [|unfold open_r; rewrite Htext; reflexivity].
  set (name := output_name (splitext path) c max_lines) in *.
  destruct (decide (name ∈ protected w)) as [Hin|Hout].
  { erewrite bind_Raised in Hrun; [done|by apply start_output_Raised]. }
  erewrite bind_Ok in Hrun; [|by apply start_output_Ok].
  set (w1 := World _ _ _) in *.
  destruct (read_loop_echo P max_lines (splitext path) (readlines text)
              (readlines_nonempty text) name c w1) as (evs & Hcons & Hecho).
  rewrite Hrun in Hcons, Hecho. simpl in Hcons, Hecho.
  exists ([PrintGenerating name; PrintPreamble P] ++ evs). split.
  - rewrite Hcons. subst w1. simpl. by rewrite <- app_assoc.
  - rewrite echoed_app. simpl. by apply (Hecho c').
Qed.

(** X10. Every line is echoed once, stripped.  An input file that is
    there, with chunks that can be written, is processed to its end, and the
    texts printed meanwhile for the lines read are, in order and one for
    each line of the input file, two blanks followed by the line as
    [line.strip()] leaves it, whatever the stripping does: what the console
    shows of a line is the stripped line, not the line itself. *)
Theorem lines_echoed (P : list string) (max_lines : Z) (path : string)
    (c : Z) (w : world) (text : string) :
  contents w !! path = Some text →
  (∀ k, chunk_name (splitext path) k ∉ protected w) →
  ∃ c' w' evs,
    process_file P max_lines path c w = (Ok c', w')
    ∧ console w' = console w ++ evs
    ∧ echoed strip evs = (λ line, "  " +:+ strip line) <$> readlines text.
Proof.
  intros Htext Hprot.
  destruct (process_file_layout P max_lines path c w text Htext Hprot)
    as (evs0 & Hrun & _).
  destruct (process_file_echo P max_lines path c _ w _ text Htext Hrun)
    as (evs & Hcons & Hecho).
  eexists _, _, evs. split; [exact Hrun|]. by split.
Qed.

End Echo.

(** *** The statements at concrete inputs *)

Lemma output_file_count_witness :
  let args := {| files := ["b.txt"]; preamble := None; size := Some 2 |} in
  let n := Z.of_nat (length (readlines (line "m1" +:+ line "m2" +:+ line "m3"))) in
  generated (console (main args demo_world))
  = generated (console demo_world)
    ++ (chunk_name (splitext "b.txt") <$> seqZ 0 (n `div` max_lines_of args + 1))
  ∧ Z.of_nat (length (generated (console (main args demo_world))))
    = Z.of_nat (length (generated (console demo_world)))
      + n `div` max_lines_of args + 1.
Proof.
  intros args.
  apply (output_file_count args demo_world "b.txt"
           (line "m1" +:+ line "m2" +:+ line "m3")).
  - reflexivity.
  - reflexivity.
  - reflexivity.
  - apply demo_unprotected.
Defined.

Lemma chunk_sizes_from_witness :
  let n := Z.of_nat (length (readlines (line "m1" +:+ line "m2" +:+ line "m3"))) in
  let room := 2 - 3 `mod` 2 in
  ∃ c' w' (chunks : list (list string)),
    process_file [] 2 "b.txt" 3 demo_world = (Ok c', w')
    ∧ (∀ (i : nat) lines, chunks !! i = Some lines →
         contents w' !! chunk_name (splitext "b.txt") (3 `quot` 2 + Z.of_nat i)
         = Some (join [] +:+ join lines))
    ∧ concat chunks = readlines (line "m1" +:+ line "m2" +:+ line "m3")
    ∧ 1 ≤ room ≤ 2
    ∧ (n < room → chunks = [readlines (line "m1" +:+ line "m2" +:+ line "m3")])
    ∧ (room ≤ n →
       ∃ first middle final,
         chunks = first :: middle ++ [final]
         ∧ Z.of_nat (length first) = room
         ∧ Forall (λ lines : list string, Z.of_nat (length lines) = 2) middle
         ∧ Z.of_nat (length final) = (3 + n) `mod` 2).
Proof.
  apply (chunk_sizes_from [] 2 "b.txt" 3 demo_world
           (line "m1" +:+ line "m2" +:+ line "m3")).
  - lia.
  - lia.
  - reflexivity.
  - apply demo_unprotected.
Defined.

Lemma negative_size_witness :
  let m := - (-2) in
  let q := 0 `div` m in
  ∃ c' w' evs (chunks : list (list string)),
    process_file [] (-2) "b.txt" 0 demo_world = (Ok c', w')
    ∧ console w' = console demo_world ++ evs
    ∧ generated evs
      = (λ k, chunk_name (splitext "b.txt") (- k))
        <$> seqZ q (Z.of_nat (length chunks))
    ∧ (∀ (i : nat) lines, chunks !! i = Some lines →
         contents w' !! chunk_name (splitext "b.txt") (- (q + Z.of_nat i))
         = Some (join [] +:+ join lines))
    ∧ concat chunks = readlines (line "m1" +:+ line "m2" +:+ line "m3")
    ∧ (0 `mod` m = 0 →
       ∃ front final,
         chunks = front ++ [final]
         ∧ Forall (λ lines : list string, Z.of_nat (length lines) = m) front
         ∧ Z.of_nat (length final)
           = Z.of_nat (length (readlines (line "m1" +:+ line "m2" +:+ line "m3")))
             `mod` m).
Proof.
  apply (negative_size [] (-2) "b.txt" 0 demo_world
           (line "m1" +:+ line "m2" +:+ line "m3")).
  - lia.
  - lia.
  - reflexivity.
  - apply demo_unprotected.
Defined.

(** A run with a negative size, as it shows on the console and on disk. *)
Example negative_size_run :
  let w' := main {| files := ["b.txt"]; preamble := None; size := Some (-2) |}
                 demo_world in
  generated (console w') = ["b-0.txt"; "b--1.txt"]
  ∧ contents w' !! "b-0.txt" = Some (line "m1" +:+ line "m2")
  ∧ contents w' !! "b--1.txt" = Some (line "m3").
Proof. by vm_compute. Qed.

Lemma main_writes_only_chunks_witness :
  let args := {| files := ["a.txt"; "b.txt"]; preamble := Some "header";
                 size := Some 2 |} in
  contents (main args demo_world) !! "header" = contents demo_world !! "header".
Proof.
  intros args. apply (main_writes_only_chunks args demo_world "header").
  intros f k Hf H.
  apply elem_of_cons in Hf as [->|Hf]; [by vm_compute in H|].
  apply elem_of_cons in Hf as [->|Hf]; [by vm_compute in H|].
  by apply elem_of_nil in Hf.
Defined.

Lemma rerun_same_files_witness :
  let args := {| files := ["b.txt"]; preamble := Some "header";
                 size := Some 2 |} in
  contents (main args (main args demo_world)) = contents (main args demo_world).
Proof.
  intros args.
  apply (rerun_same_files args demo_world "b.txt"
           (line "m1" +:+ line "m2" +:+ line "m3")).
  - reflexivity.
  - reflexivity.
  - reflexivity.
  - apply demo_unprotected.
  - intros header k [= <-] H. by vm_compute in H.
Defined.

Lemma first_output_protected_witness :
  let args := {| files := ["a.txt"]; preamble := None; size := None |} in
  contents (main args first_locked_world) = contents first_locked_world
  ∧ console (main args first_locked_world)
    = console (load_preamble args first_locked_world).2
      ++ [PrintGenerating (chunk_name (splitext "a.txt") 0);
          PrintErrorProcessing "a.txt"].
Proof.
  intros args.
  apply (first_output_protected args first_locked_world "a.txt"
           (line "l1" +:+ line "l2")).
  - reflexivity.
  - reflexivity.
  - by vm_compute.
Defined.

Lemma all_inputs_processed_witness :
  let texts := [line "l1" +:+ line "l2"; line "m1" +:+ line "m2" +:+ line "m3"] in
  ∃ w', for_files [] 2 ["a.txt"; "b.txt"] 0 demo_world
        = (Completed (0 + reads texts), w')
        ∧ Forall2 (λ f text, contents w' !! f = Some text)
                  ["a.txt"; "b.txt"] texts.
Proof.
  intros texts.
  apply (all_inputs_processed [] 2 ["a.txt"; "b.txt"] texts 0 demo_world).
  - repeat constructor.
  - intros f g k Hf Hg H.
    apply elem_of_cons in Hf as [->|Hf];
      [|apply elem_of_cons in Hf as [->|Hf]; [|by apply elem_of_nil in Hf]];
      (apply elem_of_cons in Hg as [->|Hg];
       [|apply elem_of_cons in Hg as [->|Hg]; [|by apply elem_of_nil in Hg]]);
      by vm_compute in H.
  - intros f k _. apply not_elem_of_empty.
Defined.

Lemma lines_echoed_witness :
  ∃ c' w' evs,
    process_file [line "HDR"] 2 "b.txt" 0 demo_world = (Ok c', w')
    ∧ console w' = console demo_world ++ evs
    ∧ echoed id evs
      = (λ line, "  " +:+ id line)
        <$> readlines (line "m1" +:+ line "m2" +:+ line "m3").
Proof.
  apply (lines_echoed id [line "HDR"] 2 "b.txt" 0 demo_world).
  - reflexivity.
  - apply demo_unprotected.
Defined.

End SplitFileExtra.

(* ===================================================================== *)
(** ** Further properties: ics_parser.py *)
(* ===================================================================== *)

Module IcsParserExtra.
Import IcsParser IcsParserMore IcsParserFacts.

(** *** The sort keeps the events *)

Lemma insert_perm e sorted sorted' :
  insert e sorted = Ok sorted' → sorted' ≡ₚ e :: sorted.
Proof.
  revert sorted'. induction sorted as [|e' rest IH]; intros sorted' H; simpl in H.
  - by injection H as <-.
  - destruct (datetime_lt (key e) (key e')) as [[|]|]; [| |done].
    + by injection H as <-.
    + destruct (insert e rest) as [rest'|]; [|done]. injection H as <-.
      rewrite (IH rest' eq_refl). apply perm_swap.
Qed.

Lemma sort_from_perm events acc sorted :
  foldl (λ acc e, match acc with
                  | Ok sorted => insert e sorted
                  | TypeError => TypeError
                  end) (Ok acc) events = Ok sorted →
  sorted ≡ₚ acc ++ events.
Proof.
  revert acc. induction events as [|e events IH]; intros acc H; simpl in H.
  - injection H as <-. by rewrite app_nil_r.
  - destruct (insert e acc) as [acc'|] eqn:Hins.
    + rewrite (IH acc' H), (insert_perm _ _ _ Hins).
      by rewrite <- Permutation_middle.
    + by rewrite sort_from_TypeError in H.
Qed.

Lemma sort_perm events sorted : sort events = Ok sorted → sorted ≡ₚ events.
Proof. intros H. by apply (sort_from_perm events []). Qed.

Lemma titles_app l1 l2 : titles (l1 ++ l2) = titles l1 ++ titles l2.
Proof. apply omap_app. Qed.

Lemma titles_render_event e : titles (render_event e) = [ev_summary e].
Proof.
  unfold render_event. rewrite !titles_app. simpl.
  destruct (start_prop e), (end_prop e); simpl; repeat case_decide; done.
Qed.

Lemma titles_events events :
  titles (concat (render_event <$> events)) = ev_summary <$> events.
Proof.
  induction events as [|e events IH]; [done|].
  rewrite fmap_cons, concat_cons, titles_app, titles_render_event, IH. done.
Qed.

(** *** Keys that share their [tzinfo] *)

Lemma datetime_lt_shared a b :
  tz_ident <$> tz a = tz_ident <$> tz b →
  datetime_lt a b = Ok (tuple_lt (fields a) (fields b)).
Proof.
  intros H. unfold datetime_lt.
  destruct (tz a) as [ta|], (tz b) as [tb|]; simplify_eq/=; [|done].
  by rewrite H, Z.eqb_refl.
Qed.

Lemma tuple_lt_irrefl xs : tuple_lt xs xs = false.
Proof.
  destruct (tuple_lt xs xs) eqn:H; [|done]. by rewrite (tuple_lt_asym _ _ H) in H.
Qed.

Lemma filter_none {A} (P : A → Prop) `{!∀ x, Decision (P x)} (l : list A) :
  Forall (λ x, ¬ P x) l → filter P l = [].
Proof.
  induction 1 as [|x l Hx Hl IH]; [done|]. by rewrite filter_cons_False.
Qed.

Lemma insert_by_fields e sorted :
  Forall (λ e', tzinfo_of e' = tzinfo_of e) sorted →
  StronglySorted key_le sorted →
  ∃ sorted',
    insert e sorted = Ok sorted'
    ∧ sorted' ≡ₚ e :: sorted
    ∧ StronglySorted key_le sorted'
    ∧ ∀ k, filter (λ x, fields (key x) = k) sorted'
           = filter (λ x, fields (key x) = k) sorted
             ++ filter (λ x, fields (key x) = k) [e].
Proof.
  induction sorted as [|e' rest IH]; intros Htz Hs.
  - exists [e]. split_and!; [done|done|by repeat constructor|done].
  - apply Forall_cons in Htz as [Htz' Htz].
    apply StronglySorted_inv in Hs as [Hs Hhd]. simpl.
    rewrite datetime_lt_shared by (by unfold tzinfo_of in Htz').
    destruct (tuple_lt (fields (key e)) (fields (key e'))) eqn:Hlt.
    + exists (e :: e' :: rest). split_and!; [done|done| |].
      * assert (key_le e e') as Hee' by (by apply tuple_lt_asym).
        constructor; [by constructor|]. constructor; [done|].
        eapply Forall_impl; [exact Hhd|]. intros x Hx. by trans e'.
      * intros k. rewrite (filter_cons _ e).
        case_decide as Hk; [|by rewrite (filter_cons_False _ e), app_nil_r].
        rewrite (filter_cons_True _ e) by done. rewrite filter_nil.
        assert (filter (λ x, fields (key x) = k) (e' :: rest) = []) as ->; [|done].
        apply filter_none.
        assert (Forall (key_le e') (e' :: rest)) as Hall.
        { constructor; [apply tuple_lt_irrefl|done]. }
        eapply Forall_impl; [exact Hall|]. intros x Hx Hxk. unfold key_le in Hx.
        rewrite Hxk, <- Hk in Hx. congruence.
    + destruct (IH Htz Hs) as (rest' & -> & Hperm & Hs' & Hst).
      exists (e' :: rest'). split_and!; [done| | |].
      * rewrite Hperm. apply perm_swap.
      * constructor; [done|]. rewrite Hperm. by constructor.
      * intros k. rewrite !(filter_cons _ e'), Hst.
        case_decide; [by rewrite <- app_comm_cons|done].
Qed.

Lemma sort_from_by_fields t events :
  Forall (λ e, tzinfo_of e = t) events →
  ∀ acc,
    Forall (λ e, tzinfo_of e = t) acc → StronglySorted key_le acc →
    ∃ sorted,
      foldl (λ acc e, match acc with
                      | Ok sorted => insert e sorted
                      | TypeError => TypeError
                      end) (Ok acc) events = Ok sorted
      ∧ StronglySorted key_le sorted
      ∧ ∀ k, filter (λ x, fields (key x) = k) sorted
             = filter (λ x, fields (key x) = k) acc
               ++ filter (λ x, fields (key x) = k) events.
Proof.
  induction 1 as [|e events He Hevents IH]; intros acc Hacc Hs; simpl.
  - exists acc. split_and!; [done|done|]. intros k. by rewrite app_nil_r.
  - destruct (insert_by_fields e acc) as (acc' & -> & Hperm & Hs' & Hst); [|done|].
    { eapply Forall_impl; [exact Hacc|]. intros x Hx. simpl in *. congruence. }
    destruct (IH acc') as (sorted & Hrun & Hsorted & Hst').
    { rewrite Hperm. by constructor. }
    { done. }
    exists sorted. split_and!; [done|done|].
    intros k. rewrite Hst', Hst, (filter_cons _ e events), <- app_assoc.
    f_equal. rewrite (filter_cons _ e []), filter_nil. by case_decide.
Qed.

Lemma sort_by_fields t events :
  Forall (λ e, tzinfo_of e = t) events →
  ∃ sorted,
    sort events = Ok sorted
    ∧ sorted ≡ₚ events
    ∧ StronglySorted key_le sorted
    ∧ ∀ k, filter (λ x, fields (key x) = k) sorted
           = filter (λ x, fields (key x) = k) events.
Proof.
  intros H.
  destruct (sort_from_by_fields t events H [] ltac:(constructor)
              ltac:(constructor)) as (sorted & Hrun & Hs & Hst).
  exists sorted. split_and!; [done|by apply sort_perm|done|done].
Qed.

Lemma naive_start_key strip squeeze c :
  naive_start c ↔ naive_key (collect_event strip squeeze c).
Proof.
  unfold naive_start, naive_key, key, collect_event. simpl.
  by destruct (dtstart c) as [[d|dt]|].
Qed.

Lemma aware_start_key strip squeeze c :
  aware_start c ↔ aware_key (collect_event strip squeeze c).
Proof.
  unfold aware_start, aware_key, key, collect_event. simpl.
  destruct (dtstart c) as [[d|dt]|]; simpl; [|done|];
    (split; [done|by intros [? ?]]).
Qed.

Section Report.
Variable strip squeeze : string → string.

(** X12. One kind of start, one order.  When the keys of the events share
    their [tzinfo] (none has one, or all have the same, as the times of a
    calendar kept in UTC), the sort compares them field by field and does not
    raise: the report is laid out and lists the events, all of them, by
    nondecreasing key. *)
Theorem report_sorted_shared_tzinfo (t : option Z) (ics_file_path : string)
    (walk : list component) :
  Forall (λ e, tzinfo_of e = t) (collect strip squeeze walk) →
  ∃ events,
    parse_ics_to_human_readable strip squeeze ics_file_path walk
    = Ok ([Header ics_file_path; Blank]
          ++ concat (render_event <$> events) ++ [Footer])
    ∧ events ≡ₚ collect strip squeeze walk
    ∧ StronglySorted key_le events.
Proof.
  intros H. destruct (sort_by_fields t _ H) as (events & Hrun & Hperm & Hs & _).
  exists events. unfold parse_ics_to_human_readable. by rewrite Hrun.
Qed.

(** X13. Events that start together keep their order.  Under the same
    condition the sort is stable: the events of the report that have a given
    key are the events of the calendar that have it, in the order of the
    calendar. *)
Theorem equal_starts_keep_order (t : option Z) (ics_file_path : string)
    (walk : list component) :
  Forall (λ e, tzinfo_of e = t) (collect strip squeeze walk) →
  ∃ events,
    parse_ics_to_human_readable strip squeeze ics_file_path walk
    = Ok ([Header ics_file_path; Blank]
          ++ concat (render_event <$> events) ++ [Footer])
    ∧ ∀ k, filter (λ e, fields (key e) = k) events
           = filter (λ e, fields (key e) = k) (collect strip squeeze walk).
Proof.
  intros H. destruct (sort_by_fields t _ H) as (events & Hrun & _ & _ & Hst).
  exists events. unfold parse_ics_to_human_readable. by rewrite Hrun.
Qed.

Lemma collect_mixed (walk : list component) :
  Forall (λ c, name c = "VEVENT" → naive_start c ∨ aware_start c) walk →
  Exists (λ c, name c = "VEVENT" ∧ naive_start c) walk →
  Exists (λ c, name c = "VEVENT" ∧ aware_start c) walk →
  Forall (λ e, naive_key e ∨ aware_key e) (collect strip squeeze walk)
  ∧ Exists naive_key (collect strip squeeze walk)
  ∧ Exists aware_key (collect strip squeeze walk).
Proof.
  intros Hkinds Hn Ha. split_and!.
  - unfold collect. apply Forall_fmap, Forall_forall. intros c Hc.
    apply list_elem_of_filter in Hc as [Hname Hc]. simpl.
    rewrite Forall_forall in Hkinds.
    destruct (Hkinds c Hc Hname); [left|right].
    + by apply naive_start_key.
    + by apply aware_start_key.
  - apply Exists_exists in Hn as (c & Hc & Hname & Hstart).
    apply Exists_exists. exists (collect_event strip squeeze c). split.
    + unfold collect. apply list_elem_of_fmap_2, list_elem_of_filter. by split.
    + by apply naive_start_key.
  - apply Exists_exists in Ha as (c & Hc & Hname & Hstart).
    apply Exists_exists. exists (collect_event strip squeeze c). split.
    + unfold collect. apply list_elem_of_fmap_2, list_elem_of_filter. by split.
    + by apply aware_start_key.
Qed.

(** X14. Starts of two kinds.  In a calendar whose events start without
    offset (no DTSTART, a date, a datetime without [tzinfo]) or with one, an
    event of each kind is enough: the sort raises [TypeError] and no report is
    laid out, whatever the other events and their order. *)
Theorem mixed_starts_raise (ics_file_path : string) (walk : list component) :
  Forall (λ c, name c = "VEVENT" → naive_start c ∨ aware_start c) walk →
  Exists (λ c, name c = "VEVENT" ∧ naive_start c) walk →
  Exists (λ c, name c = "VEVENT" ∧ aware_start c) walk →
  parse_ics_to_human_readable strip squeeze ics_file_path walk = TypeError.
Proof.
  intros Hkinds Hn Ha. unfold parse_ics_to_human_readable.
  destruct (collect_mixed walk Hkinds Hn Ha) as (H1 & H2 & H3).
  by rewrite sort_mixed.
Qed.



(** X11. No event is lost, none is invented.  A report that is laid out has
    the header lines, the blocks of the events and the footer; its titles
    are, up to their order, the titles of the VEVENT components of the
    calendar, one for each, and the other components leave no line. *)
Theorem no_event_lost (ics_file_path : string) (walk : list component)
    (output_lines : list report_line) :
  parse_ics_to_human_readable strip squeeze ics_file_path walk
  = Ok output_lines →
  ∃ events,
    events ≡ₚ collect strip squeeze walk
    ∧ output_lines
      = [Header ics_file_path; Blank]
        ++ concat (render_event <$> events) ++ [Footer]
    ∧ titles output_lines
      ≡ₚ (λ c, strip (text_or (summary c) "No Title"))
         <$> filter (λ c, name c = "VEVENT") walk
    ∧ length (titles output_lines)
      = length (filter (λ c, name c = "VEVENT") walk).
Proof.
  unfold parse_ics_to_human_readable. intros H.
  destruct (sort (collect strip squeeze walk)) as [events|] eqn:Hsort; [|done].
  injection H as <-. pose proof (sort_perm _ _ Hsort) as Hperm.
  assert (titles ([Header ics_file_path; Blank]
                  ++ concat (render_event <$> events) ++ [Footer])
          = ev_summary <$> events) as Ht.
  { rewrite !titles_app, titles_events. simpl. by rewrite app_nil_r. }
  simpl in Ht. simpl.
  exists events. split_and!; [done|done| |].
  - rewrite Ht, Hperm. unfold collect. by rewrite <- list_fmap_compose.
  - rewrite Ht, length_fmap, Hperm. unfold collect. by rewrite length_fmap.
Qed.

End Report.

(** *** The function with its files *)

Section Script.
Variable from_ical : string → option (list component).
Variable strip squeeze : string → string.
Variable show : report_line → string.

(** X16. A file is written exactly when the function says so.  However the
    call ends, either no file has changed and the console does not end with
    the message of success, or an output path was given, the file at this
    path holds the text of the report of the calendar that was read from
    the input file, nothing else has changed, and the message of success is
    the one message printed.  Which paths can be read
    or written does not change. *)
Theorem run_writes_with_success (ics_file_path : string)
    (output_file_path : option string) (w : world) :
  let w' := (run from_ical strip squeeze show ics_file_path output_file_path w).2 in
  unreadable w' = unreadable w
  ∧ protected w' = protected w
  ∧ ((contents w' = contents w
      ∧ ∀ path, console w' ≠ console w ++ [Extracted path])
     ∨ ∃ path output_lines,
         output_file_path = Some path
         ∧ (∃ text walk,
              contents w !! ics_file_path = Some text
              ∧ from_ical text = Some walk
              ∧ parse_ics_to_human_readable strip squeeze ics_file_path walk
                = Ok output_lines)
         ∧ contents w'
           = <[path := join_lines (show <$> output_lines)]> (contents w)
         ∧ console w' = console w ++ [Extracted path]).
Proof.
  assert (∀ (l : list message) m path, m ≠ Extracted path → l ++ [m] ≠ l ++ [Extracted path])
    as Hne.
  { intros l m path Hm H. apply app_inv_head in H. congruence. }
  assert (∀ (l : list message) path, l ≠ l ++ [Extracted path]) as Hne'.
  { intros l path H. apply (f_equal length) in H. rewrite length_app in H.
    simpl in H. lia. }
  unfold run, read_calendar.
  destruct (contents w !! ics_file_path) as [text|] eqn:Htext; simpl.
  2:{ split_and!; [done..|]. left. split; [done|]. intros; by apply Hne. }
  case_decide; simpl.
  { split_and!; [done..|]. left. split; [done|]. intros; by apply Hne. }
  destruct (from_ical text) as [walk|] eqn:Hical; simpl.
  2:{ split_and!; [done..|]. left. split; [done|]. intros; by apply Hne. }
  destruct (parse_ics_to_human_readable strip squeeze ics_file_path walk)
    as [output_lines|] eqn:Hparse; simpl.
  2:{ split_and!; [done..|]. left. split; [done|]. apply Hne'. }
  unfold deliver. destruct output_file_path as [path|]; simpl.
  2:{ split_and!; [done..|]. left. split; [done|]. intros; by apply Hne. }
  case_decide; simpl.
  { split_and!; [done..|]. left. split; [done|]. intros; by apply Hne. }
  case_decide; simpl.
  { split_and!; [done..|]. left. split; [done|]. intros; by apply Hne. }
  split_and!; [done..|]. right. exists path, output_lines. eauto 10.
Qed.

(** X17. The exception of the sort is not reported.  For a calendar that can
    be read and has starts of the two kinds, the call ends with the
    [TypeError]: no message is printed, not even one of the error messages
    the function has, and no file is written, whether an output path was
    given or not. *)
Theorem type_error_is_silent (ics_file_path : string)
    (output_file_path : option string) (w : world) (text : string)
    (walk : list component) :
  contents w !! ics_file_path = Some text →
  ics_file_path ∉ unreadable w →
  from_ical text = Some walk →
  Forall (λ c, name c = "VEVENT" → naive_start c ∨ aware_start c) walk →
  Exists (λ c, name c = "VEVENT" ∧ naive_start c) walk →
  Exists (λ c, name c = "VEVENT" ∧ aware_start c) walk →
  run from_ical strip squeeze show ics_file_path output_file_path w
  = (Raised, w).
Proof.
  intros Htext Hread Hical Hkinds Hn Ha.
  destruct (collect_mixed strip squeeze walk Hkinds Hn Ha) as (H1 & H2 & H3).
  unfold run, read_calendar, parse_ics_to_human_readable.
  rewrite Htext, decide_False, Hical by done. by rewrite sort_mixed.
Qed.

End Script.

(** *** The statements at concrete inputs *)

Lemma no_event_lost_witness :
  let walk := [all_day_event; floating_event] in
  let output_lines :=
    [Header "cal.ics"; Blank;
     Title "Lunch";
     Start (LocalTime (DateTime (Date 2024 1 1) 12 0 0 0 None));
     Location "Canteen"; Rule;
     Title "Holiday"; Start (AllDay (Date 2024 1 2));
     Finish (AllDay (Date 2024 1 3)); Rule;
     Footer] in
  ∃ events,
    events ≡ₚ collect id id walk
    ∧ output_lines
      = [Header "cal.ics"; Blank] ++ concat (render_event <$> events) ++ [Footer]
    ∧ titles output_lines
      ≡ₚ (λ c, id (text_or (summary c) "No Title"))
         <$> filter (λ c, name c = "VEVENT") walk
    ∧ length (titles output_lines)
      = length (filter (λ c, name c = "VEVENT") walk).
Proof.
  intros walk output_lines.
  apply (no_event_lost id id "cal.ics" walk output_lines). reflexivity.
Defined.

Lemma report_sorted_shared_tzinfo_witness :
  let walk := [timed_event; later_timed_event] in
  ∃ events,
    parse_ics_to_human_readable id id "cal.ics" walk
    = Ok ([Header "cal.ics"; Blank]
          ++ concat (render_event <$> events) ++ [Footer])
    ∧ events ≡ₚ collect id id walk
    ∧ StronglySorted key_le events.
Proof.
  intros walk.
  apply (report_sorted_shared_tzinfo id id (Some 0) "cal.ics" walk).
  repeat constructor.
Defined.

Lemma equal_starts_keep_order_witness :
  let walk := [all_day_event; floating_event; all_day_event] in
  ∃ events,
    parse_ics_to_human_readable id id "cal.ics" walk
    = Ok ([Header "cal.ics"; Blank]
          ++ concat (render_event <$> events) ++ [Footer])
    ∧ ∀ k, filter (λ e, fields (key e) = k) events
           = filter (λ e, fields (key e) = k) (collect id id walk).
Proof.
  intros walk.
  apply (equal_starts_keep_order id id None "cal.ics" walk).
  repeat constructor.
Defined.

Lemma mixed_starts_raise_witness :
  parse_ics_to_human_readable id id "cal.ics"
    [floating_event; timed_event; all_day_event] = TypeError.
Proof.
  apply (mixed_starts_raise id id "cal.ics").
  - repeat (apply Forall_cons; split;
      [intros _; first [by left|right; by eexists]|]). apply Forall_nil_2.
  - apply Exists_cons_hd. by split.
  - apply Exists_cons_tl, Exists_cons_hd. split; [done|]. by eexists.
Defined.


Lemma type_error_is_silent_witness :
  run demo_from_ical id id demo_show "cal.ics" (Some "out.txt") calendar_world
  = (Raised, calendar_world).
Proof.
  apply (type_error_is_silent demo_from_ical id id demo_show "cal.ics"
           (Some "out.txt") calendar_world "BEGIN:VCALENDAR"
           [timed_event; all_day_event]).
  - reflexivity.
  - apply not_elem_of_empty.
  - reflexivity.
  - repeat (apply Forall_cons; split;
      [intros _; first [by left|right; by eexists]|]). apply Forall_nil_2.
  - apply Exists_cons_tl, Exists_cons_hd. by split.
  - apply Exists_cons_hd. split; [done|]. by eexists.
Defined.

End IcsParserExtra.
